(** * A byte trie with edge compression: model and verification

    Shallow embedding of [trie.go] (package [trie]).  A [Trie] node holds a
    compressed edge ([suffix]), an optional value, and a child array that is
    addressed by [byte - base].  Go strings are byte sequences and are
    modelled as lists of [ascii]; Go [int]s are modelled in [Z]; [byte]
    arithmetic is written out with its wrap-around modulo 256. *)

From Stdlib Require Import ZArith Ascii String Lia Sorted DecimalString.
From stdpp Require Import base option list numbers strings sorting.

Set Default Goal Selector "!".
Set Warnings "-register-all".

(** ** Bytes *)

Abbreviation byte := ascii.
Abbreviation bstring := (list ascii).

(** The integer value of a byte, [int(b)] in the source. *)
Definition b2z (b : byte) : Z := Z.of_N (N_of_ascii b).

(** Conversion [byte(z)] of an integer: truncation to the low eight bits. *)
Definition z2b (z : Z) : byte := ascii_of_N (Z.to_N (z mod 256)).

Definition byte_sub (a b : byte) : byte := z2b (b2z a - b2z b).
Definition byte_and (a b : byte) : byte := z2b (Z.land (b2z a) (b2z b)).
Definition byte_not (a : byte) : byte := z2b (Z.lxor (b2z a) 255).
Definition byte_inc (a : byte) : byte := z2b (b2z a + 1).

(** [s[i]] on a string; the default is only reached out of range. *)
Definition byte_at (s : bstring) (i : nat) : byte := default (z2b 0) (s !! i).

(** A string literal as a byte string. *)
Definition bs (s : string) : bstring := list_ascii_of_string s.

(** ** commonPrefix: the largest [i] such that [a[:i] == b[:i]] *)

Fixpoint commonPrefix (a b : bstring) : nat :=
  match a, b with
  | x :: a', y :: b' => if Ascii.eqb x y then S (commonPrefix a' b') else 0
  | _, _ => 0
  end.

(** The doubling loop of [Put] (lines 67-70 and 97-100):
    [for key[s] < newbase || int(key[s]) >= int(newbase)+newlen
       { newlen *= 2; newbase &= ^byte(newlen - 1) }].
    The loop is run with a budget of iterations; [grow_exits] below shows
    that eight iterations reach the exit condition from every positive
    length. *)
Definition out_of_window (c newbase : byte) (newlen : Z) : bool :=
  (b2z c <? b2z newbase)%Z || (b2z newbase + newlen <=? b2z c)%Z.

Fixpoint grow (fuel : nat) (c newbase : byte) (newlen : Z) : byte * Z :=
  match fuel with
  | O => (newbase, newlen)
  | S fuel' =>
      if out_of_window c newbase newlen then
        let newlen' := (newlen * 2)%Z in
        grow fuel' c (byte_and newbase (byte_not (z2b (newlen' - 1)))) newlen'
      else (newbase, newlen)
  end.

Definition grow_budget : nat := 8.

(** [copy(dst[off:], src)]: overwrite [dst] from offset [off] with as much
    of [src] as fits. *)
Definition copy_at {A} (dst : list A) (off : nat) (src : list A) : list A :=
  take off dst ++ take (length dst - off) src ++ drop (off + length src) dst.

Section Model.
Context {V : Type}.

(** ** The node type *)

Inductive Trie : Type := mkTrie {
  suffix : bstring;
  value : option V;
  children : list Trie;
  base : byte
}.

(** The zero value of [Trie]: an empty trie ready to use. *)
Definition zero : Trie := mkTrie [] None [] (z2b 0).

(** [make([]Trie, n)] *)
Definition make (n : Z) : list Trie := replicate (Z.to_nat n) zero.

(** [cs[i]]; the default is only reached out of range. *)
Definition child_at (cs : list Trie) (i : nat) : Trie := default zero (cs !! i).

(** The array index [c - base], computed in [byte]. *)
Definition idx (c b : byte) : nat := Z.to_nat (b2z (byte_sub c b)).

(** [key[s] < t.base || int(key[s]) >= int(t.base)+len(t.children)] *)
Definition out_of_range (t : Trie) (c : byte) : bool :=
  out_of_window c (base t) (Z.of_nat (length (children t))).

(** [t.children == nil && t.value == nil].  Child arrays are only ever
    produced by [make] with a positive length, so a nil slice and an empty
    slice coincide. *)
Definition is_empty_node (t : Trie) : bool :=
  match children t, value t with
  | [], None => true
  | _, _ => false
  end.

(** ** Put *)

(** Lines 59-84: split the node on [s]; the old contents move to the
    child selected by [suffix[s]]. *)
Definition split (t : Trie) (key : bstring) (s : nat) : Trie :=
  let c := byte_at (suffix t) s in
  let '(newbase, newlen) :=
    if s <? length key then grow grow_budget (byte_at key s) c 1 else (c, 1%Z) in
  let newch :=
    <[ idx c newbase :=
         mkTrie (drop (S s) (suffix t)) (value t) (children t) (base t) ]>
      (make newlen) in
  mkTrie (take s (suffix t)) None newch newbase.

(** Lines 91-107: make sure the child array has a slot for byte [c]. *)
Definition reserve (t : Trie) (c : byte) : Trie :=
  if length (children t) =? 0 then
    mkTrie (suffix t) (value t) (make 1) c
  else
    let '(newbase, newlen) :=
      grow grow_budget c (base t) (Z.of_nat (length (children t))) in
    if (newlen =? Z.of_nat (length (children t)))%Z then t
    else
      mkTrie (suffix t) (value t)
        (copy_at (make newlen) (idx (base t) newbase) (children t)) newbase.

(** [Put] recurses on [key[s+1:]], a strictly shorter key; the recursion
    is driven by a counter that bounds the key length. *)
Fixpoint Put_rec (n : nat) (t : Trie) (key : bstring) (v : option V) : Trie :=
  match n with
  | O => t
  | S n' =>
      if is_empty_node t then mkTrie key v (children t) (base t)
      else
        let s := commonPrefix (suffix t) key in
        let t1 := if s <? length (suffix t) then split t key s else t in
        if s =? length key then mkTrie (suffix t1) v (children t1) (base t1)
        else
          let t2 := reserve t1 (byte_at key s) in
          let i := idx (byte_at key s) (base t2) in
          mkTrie (suffix t2) (value t2)
            (<[ i := Put_rec n' (child_at (children t2) i) (drop (S s) key) v ]>
               (children t2))
            (base t2)
  end.

Definition Put (t : Trie) (key : bstring) (v : option V) : Trie :=
  Put_rec (S (length key)) t key v.

(** ** Get *)

Fixpoint Get_rec (n : nat) (t : Trie) (key : bstring) : option V :=
  match n with
  | O => None
  | S n' =>
      let s := commonPrefix (suffix t) key in
      if s <? length (suffix t) then None
      else if s =? length key then value t
      else if out_of_range t (byte_at key s) then None
      else Get_rec n' (child_at (children t) (idx (byte_at key s) (base t)))
                   (drop (S s) key)
  end.

Definition Get (t : Trie) (key : bstring) : option V :=
  Get_rec (S (length key)) t key.

(** ** FindPfx *)

Fixpoint FindPfx_rec (n : nat) (t : Trie) (key : bstring) : bstring * option V :=
  match n with
  | O => ([], None)
  | S n' =>
      let s := commonPrefix (suffix t) key in
      let own := match value t with
                 | Some _ => (suffix t, value t)
                 | None => ([], None)
                 end in
      if s <? length (suffix t) then ([], None)
      else if s =? length key then own
      else if out_of_range t (byte_at key s) then own
      else
        let '(p, v) := FindPfx_rec n' (child_at (children t) (idx (byte_at key s) (base t)))
                                   (drop (S s) key) in
        match v with
        | Some _ => (take (S s) key ++ p, v)
        | None => own
        end
  end.

Definition FindPfx (t : Trie) (key : bstring) : bstring * option V :=
  FindPfx_rec (S (length key)) t key.

(** ** FindAllPfx *)

(** A [KV] is a key, value pair. *)
Definition KV : Type := bstring * V.

(** [findAllPfx(key, ofs)]: the offset grows with every call, the counter
    bounds [len(key) - ofs].  The child is selected with [key[s]], as in
    lines 192 and 199 of the source. *)
Fixpoint findAllPfx_rec (n : nat) (t : Trie) (key : bstring) (ofs : nat) : list KV :=
  match n with
  | O => []
  | S n' =>
      let s := commonPrefix (suffix t) (drop ofs key) in
      let own := match value t with
                 | Some v => [(take (ofs + s) key, v)]
                 | None => []
                 end in
      if s <? length (suffix t) then []
      else if ofs + s =? length key then own
      else if out_of_range t (byte_at key s) then own
      else
        findAllPfx_rec n' (child_at (children t) (idx (byte_at key s) (base t)))
                       key (ofs + s + 1)
          ++ own
  end.

Definition findAllPfx (t : Trie) (key : bstring) (ofs : nat) : list KV :=
  findAllPfx_rec (S (length key - ofs)) t key ofs.

Definition FindAllPfx (t : Trie) (key : bstring) : list KV := findAllPfx t key 0.

(** ** subtrie *)

(** [subtrie] returns a node of the trie and an integer, or [nil, 0]. *)
Fixpoint subtrie_rec (n : nat) (t : Trie) (key : bstring) : option (Trie * nat) :=
  match n with
  | O => None
  | S n' =>
      let s := commonPrefix (suffix t) key in
      if s =? length key then Some (t, s)
      else if s <? length (suffix t) then None
      else if out_of_range t (byte_at key s) then None
      else subtrie_rec n' (child_at (children t) (idx (byte_at key s) (base t)))
                       (drop (S s) key)
  end.

Definition subtrie (t : Trie) (key : bstring) : option (Trie * nat) :=
  subtrie_rec (S (length key)) t key.

(** ** forEach *)

(** The traversal threads two pieces of state: the shared [bytes.Buffer]
    holding the current key path, and the sequence of calls made to the
    callback so far.  The result is the returned flag with the final
    state. *)
Definition walk : Type := bool * bstring * list KV.

(** Lines 243-248: the loop over the children; position [l] of the buffer
    holds the selecting byte and is incremented after every child. *)
Definition each_child (visit : Trie → bstring → list KV → walk) (l : nat)
  : list Trie → bstring → list KV → walk :=
  fix go cs buf calls :=
    match cs with
    | [] => (true, buf, calls)
    | c :: cs' =>
        let '(ok, buf', calls') := visit c buf calls in
        if ok then go cs' (alter byte_inc l buf') calls'
        else (false, buf', calls')
    end.

Fixpoint forEach (f : bstring → V → bool) (t : Trie)
    (buf : bstring) (calls : list KV) : walk :=
  if is_empty_node t then (true, buf, calls)
  else
    let pfx := length buf in
    let buf1 := buf ++ suffix t in
    let '(go_on, calls1) :=
      match value t with
      | Some v => (f buf1 v, calls ++ [(buf1, v)])
      | None => (true, calls)
      end in
    if negb go_on then (false, buf1, calls1)
    else
      match children t with
      | [] => (true, take pfx buf1, calls1)
      | _ =>
          let l := length buf1 in
          let '(ok, buf2, calls2) :=
            each_child (forEach f) l (children t) (buf1 ++ [base t]) calls1 in
          if ok then (true, take pfx buf2, calls2) else (false, buf2, calls2)
      end.

(** [ForEach] returns nothing; what it does is the sequence of calls it
    makes to [f]. *)
Definition ForEach (f : bstring → V → bool) (t : Trie) : list KV :=
  (forEach f t [] []).2.

(** ** ForEachPfx *)
Definition ForEachPfx (pfx : bstring) (f : bstring → V → bool) (t : Trie) : list KV :=
  match subtrie t pfx with
  | None => []
  | Some (t', sfx) => (forEach f t' (take (length pfx - sfx) pfx) []).2
  end.

(** ** String *)

(** [fmt.Fprintf(&buf, "\t%s:%v\n", key, val)], with [show] standing for
    the [%v] rendering of a value. *)
Definition render_kv (show : V → bstring) (kv : KV) : bstring :=
  [ascii_of_nat 9] ++ kv.1 ++ bs ":" ++ show kv.2 ++ [ascii_of_nat 10].

Definition String_ (show : V → bstring) (t : Trie) : bstring :=
  bs "trie{" ++ [ascii_of_nat 10]
    ++ concat (map (render_kv show) (ForEach (fun _ _ => true) t))
    ++ bs "}".

(** Building a trie from the zero value by a sequence of [Put]s. *)
Definition build (ops : list (bstring * option V)) : Trie :=
  fold_left (fun t kv => Put t kv.1 kv.2) ops zero.

End Model.

Arguments Trie : clear implicits.
Arguments KV : clear implicits.
Arguments walk : clear implicits.

(** ** The same operations with run-time panics made explicit

    In [Checked] every index expression, slice expression and [make] of the
    source is bounds-checked the way the Go runtime does it: the result is
    [None] when the operation would panic.  [None] is also the result when
    a loop or a recursion would exceed its budget, so that [Some] means
    that the call returns normally. *)
Module Checked.
Section Checked.
Context {V : Type}.
Abbreviation Trie := (Trie V).
Abbreviation KV := (KV V).

(** [l[i]] *)
Definition index {A} (l : list A) (i : nat) : option A := l !! i.

(** [l[i:]] *)
Definition slice_from {A} (l : list A) (i : nat) : option (list A) :=
  if i <=? length l then Some (drop i l) else None.

(** [l[:i]] *)
Definition slice_to {A} (l : list A) (i : nat) : option (list A) :=
  if i <=? length l then Some (take i l) else None.

(** [l[i] = x] *)
Definition store {A} (l : list A) (i : nat) (x : A) : option (list A) :=
  if i <? length l then Some (<[ i := x ]> l) else None.

(** [make([]Trie, n)] panics on a negative length. *)
Definition make (n : Z) : option (list Trie) :=
  if (0 <=? n)%Z then Some (replicate (Z.to_nat n) zero) else None.

(** [copy(dst[off:], src)]: only the slice expression can panic. *)
Definition copy_at {A} (dst : list A) (off : nat) (src : list A) : option (list A) :=
  window ← slice_from dst off;
  Some (take off dst ++ take (length window) src ++ drop (length src) window).

(** The doubling loop; [None] when the budget is used up before the exit
    condition holds. *)
Fixpoint grow (fuel : nat) (c newbase : byte) (newlen : Z) : option (byte * Z) :=
  if out_of_window c newbase newlen then
    match fuel with
    | O => None
    | S fuel' =>
        let newlen' := (newlen * 2)%Z in
        grow fuel' c (byte_and newbase (byte_not (z2b (newlen' - 1)))) newlen'
    end
  else Some (newbase, newlen).

Definition split (t : Trie) (key : bstring) (s : nat) : option Trie :=
  c ← index (suffix t) s;
  '(newbase, newlen) ←
    (if s <? length key then k ← index key s; grow grow_budget k c 1
     else Some (c, 1%Z));
  newch ← make newlen;
  rest ← slice_from (suffix t) (S s);
  newch' ← store newch (idx c newbase)
              (mkTrie rest (value t) (children t) (base t));
  front ← slice_to (suffix t) s;
  Some (mkTrie front None newch' newbase).

Definition reserve (t : Trie) (key : bstring) (s : nat) : option Trie :=
  if length (children t) =? 0 then
    cs ← make 1;
    c ← index key s;
    Some (mkTrie (suffix t) (value t) cs c)
  else
    c ← index key s;
    '(newbase, newlen) ← grow grow_budget c (base t) (Z.of_nat (length (children t)));
    if (newlen =? Z.of_nat (length (children t)))%Z then Some t
    else
      newch ← make newlen;
      newch' ← copy_at newch (idx (base t) newbase) (children t);
      Some (mkTrie (suffix t) (value t) newch' newbase).

Fixpoint Put_rec (n : nat) (t : Trie) (key : bstring) (v : option V) : option Trie :=
  match n with
  | O => None
  | S n' =>
      if is_empty_node t then Some (mkTrie key v (children t) (base t))
      else
        let s := commonPrefix (suffix t) key in
        t1 ← (if s <? length (suffix t) then split t key s else Some t);
        if s =? length key then Some (mkTrie (suffix t1) v (children t1) (base t1))
        else
          t2 ← reserve t1 key s;
          c ← index key s;
          let i := idx c (base t2) in
          child ← index (children t2) i;
          rest ← slice_from key (S s);
          child' ← Put_rec n' child rest v;
          cs ← store (children t2) i child';
          Some (mkTrie (suffix t2) (value t2) cs (base t2))
  end.

Definition Put (t : Trie) (key : bstring) (v : option V) : option Trie :=
  Put_rec (S (length key)) t key v.

Fixpoint Get_rec (n : nat) (t : Trie) (key : bstring) : option (option V) :=
  match n with
  | O => None
  | S n' =>
      let s := commonPrefix (suffix t) key in
      if s <? length (suffix t) then Some None
      else if s =? length key then Some (value t)
      else
        c ← index key s;
        if out_of_range t c then Some None
        else
          child ← index (children t) (idx c (base t));
          rest ← slice_from key (S s);
          Get_rec n' child rest
  end.

Definition Get (t : Trie) (key : bstring) : option (option V) :=
  Get_rec (S (length key)) t key.

Fixpoint FindPfx_rec (n : nat) (t : Trie) (key : bstring)
  : option (bstring * option V) :=
  match n with
  | O => None
  | S n' =>
      let s := commonPrefix (suffix t) key in
      let own := match value t with
                 | Some _ => (suffix t, value t)
                 | None => ([], None)
                 end in
      if s <? length (suffix t) then Some ([], None)
      else if s =? length key then Some own
      else
        c ← index key s;
        if out_of_range t c then Some own
        else
          child ← index (children t) (idx c (base t));
          rest ← slice_from key (S s);
          '(p, v) ← FindPfx_rec n' child rest;
          match v with
          | Some _ => front ← slice_to key (S s); Some (front ++ p, v)
          | None => Some own
          end
  end.

Definition FindPfx (t : Trie) (key : bstring) : option (bstring * option V) :=
  FindPfx_rec (S (length key)) t key.

Fixpoint findAllPfx_rec (n : nat) (t : Trie) (key : bstring) (ofs : nat)
  : option (list KV) :=
  match n with
  | O => None
  | S n' =>
      tail ← slice_from key ofs;
      let s := commonPrefix (suffix t) tail in
      let own := match value t with
                 | Some v => front ← slice_to key (ofs + s); Some [(front, v)]
                 | None => Some []
                 end in
      if s <? length (suffix t) then Some []
      else if ofs + s =? length key then own
      else
        c ← index key s;
        if out_of_range t c then own
        else
          child ← index (children t) (idx c (base t));
          kv ← findAllPfx_rec n' child key (ofs + s + 1);
          match value t with
          | Some v => front ← slice_to key (ofs + s); Some (kv ++ [(front, v)])
          | None => Some kv
          end
  end.

Definition findAllPfx (t : Trie) (key : bstring) (ofs : nat) : option (list KV) :=
  findAllPfx_rec (S (length key - ofs)) t key ofs.

Definition FindAllPfx (t : Trie) (key : bstring) : option (list KV) :=
  findAllPfx t key 0.

Fixpoint subtrie_rec (n : nat) (t : Trie) (key : bstring)
  : option (option (Trie * nat)) :=
  match n with
  | O => None
  | S n' =>
      let s := commonPrefix (suffix t) key in
      if s =? length key then Some (Some (t, s))
      else if s <? length (suffix t) then Some None
      else
        c ← index key s;
        if out_of_range t c then Some None
        else
          child ← index (children t) (idx c (base t));
          rest ← slice_from key (S s);
          subtrie_rec n' child rest
  end.

Definition subtrie (t : Trie) (key : bstring) : option (option (Trie * nat)) :=
  subtrie_rec (S (length key)) t key.

(** [buf.Bytes()[l]++] *)
Definition bump (l : nat) (buf : bstring) : option bstring :=
  b ← index buf l; store buf l (byte_inc b).

Definition each_child (visit : Trie → bstring → list KV → option (walk V)) (l : nat)
  : list Trie → bstring → list KV → option (walk V) :=
  fix go cs buf calls :=
    match cs with
    | [] => Some (true, buf, calls)
    | c :: cs' =>
        '(ok, buf', calls') ← visit c buf calls;
        if ok : bool then buf'' ← bump l buf'; go cs' buf'' calls'
        else Some (false, buf', calls')
    end.

Fixpoint forEach (f : bstring → V → bool) (t : Trie)
    (buf : bstring) (calls : list KV) : option (walk V) :=
  if is_empty_node t then Some (true, buf, calls)
  else
    let pfx := length buf in
    let buf1 := buf ++ suffix t in
    let '(go_on, calls1) :=
      match value t with
      | Some v => (f buf1 v, calls ++ [(buf1, v)])
      | None => (true, calls)
      end in
    if negb go_on then Some (false, buf1, calls1)
    else
      match children t with
      | [] => buf' ← slice_to buf1 pfx; Some (true, buf', calls1)
      | _ =>
          let l := length buf1 in
          '(ok, buf2, calls2) ←
            each_child (forEach f) l (children t) (buf1 ++ [base t]) calls1;
          if ok : bool then buf' ← slice_to buf2 pfx; Some (true, buf', calls2)
          else Some (false, buf2, calls2)
      end.

Definition ForEach (f : bstring → V → bool) (t : Trie) : option (list KV) :=
  r ← forEach f t [] []; Some r.2.

(** [pfx[:len(pfx)-sfx]] panics when [sfx] exceeds [len(pfx)]. *)
Definition ForEachPfx (pfx : bstring) (f : bstring → V → bool) (t : Trie)
  : option (list KV) :=
  r ← subtrie t pfx;
  match r with
  | None => Some []
  | Some (t', sfx) =>
      if sfx <=? length pfx then
        front ← slice_to pfx (length pfx - sfx);
        w ← forEach f t' front [];
        Some w.2
      else None
  end.

Definition String_ (show : V → bstring) (t : Trie) : option bstring :=
  calls ← ForEach (fun _ _ => true) t;
  Some (bs "trie{" ++ [ascii_of_nat 10]
          ++ concat (map (render_kv show) calls) ++ bs "}").

End Checked.
End Checked.

(** ** Specification-side notions *)

(** Lexicographic order on byte strings, the order of Go's [<] on
    strings. *)
Fixpoint lex_ltb (a b : bstring) : bool :=
  match a, b with
  | _, [] => false
  | [], _ :: _ => true
  | x :: a', y :: b' =>
      if (b2z x <? b2z y)%Z then true
      else if (b2z y <? b2z x)%Z then false
      else lex_ltb a' b'
  end.

Definition lex_lt (a b : bstring) : Prop := lex_ltb a b = true.

(** [strip a k] is [Some r] exactly when [k = a ++ r]. *)
Fixpoint strip (a k : bstring) : option bstring :=
  match a, k with
  | [], _ => Some k
  | _ :: _, [] => None
  | x :: a', y :: k' => if Ascii.eqb x y then strip a' k' else None
  end.

(** [starts_with p k]: the key [k] starts with [p]. *)
Definition starts_with (p k : bstring) : bool :=
  match strip p k with Some _ => true | None => false end.

Section Spec.
Context {V : Type}.
Abbreviation Trie := (Trie V).
Abbreviation KV := (KV V).

(** All the nodes of a trie, the root first. *)
Fixpoint nodes (t : Trie) : list Trie :=
  t :: concat (map nodes (children t)).

(** Induction on tries that reaches the children through the array. *)
Fixpoint Trie_nested_ind (P : Trie → Prop)
    (step : ∀ t, Forall P (children t) → P t) (t : Trie) : P t :=
  step t
    (let fix all (cs : list Trie) : Forall P cs :=
       match cs with
       | [] => Forall_nil_2 P
       | c :: cs' => Forall_cons_2 P c cs' (Trie_nested_ind P step c) (all cs')
       end in
     match t with mkTrie _ _ cs _ => all cs end).

(** The alignment invariant of a node: a non-empty child array has a
    length [2^j] (at most 256) and a base that is a multiple of it. *)
Definition aligned (t : Trie) : Prop :=
  children t = [] ∨
  ∃ j : Z, (0 ≤ j ≤ 8)%Z ∧ Z.of_nat (length (children t)) = (2 ^ j)%Z
           ∧ (b2z (base t) mod 2 ^ j = 0)%Z.

Inductive wf : Trie → Prop :=
| wf_node t : aligned t → Forall wf (children t) → wf t.

(** The child selected by byte [c]; the zero trie when [c] is outside the
    window of the child array. *)
Definition child_for (t : Trie) (c : byte) : Trie :=
  if out_of_range t c then zero else child_at (children t) (idx c (base t)).

(** What a sequence of [Put]s has stored for [k]: the value of the last
    [Put] on [k], and nothing when there is none. *)
Definition stored (ops : list (bstring * option V)) (k : bstring) : option V :=
  fold_left (fun acc kv => if decide (kv.1 = k) then kv.2 else acc) ops None.

(** The key, value pairs below a node in traversal order, [path] being
    the bytes consumed on the way to the node. *)
Definition enum_children (visit : Trie → bstring → list KV) (p : bstring)
  : list Trie → byte → list KV :=
  fix go cs b :=
    match cs with
    | [] => []
    | c :: cs' => visit c (p ++ [b]) ++ go cs' (byte_inc b)
    end.

Fixpoint enum (t : Trie) (path : bstring) : list KV :=
  if is_empty_node t then []
  else
    let p := path ++ suffix t in
    match value t with Some v => [(p, v)] | None => [] end
      ++ enum_children enum p (children t) (base t).

(** The calls a traversal makes before a callback stops it: the pairs up
    to and including the first one on which [f] returns false. *)
Fixpoint stop_at (f : bstring → V → bool) (l : list KV) : list KV :=
  match l with
  | [] => []
  | kv :: l' => kv :: if f kv.1 kv.2 then stop_at f l' else []
  end.

Definition all_continue (f : bstring → V → bool) (l : list KV) : bool :=
  forallb (fun kv => f kv.1 kv.2) l.

(** What [Put] promises on keys shorter than [n]. *)
Definition Put_ok (n : nat) (v : option V) : Prop :=
  ∀ t key, length key < n → wf t →
    wf (Put_rec n t key v)
    ∧ (∀ k, Get (Put_rec n t key v) k = if decide (k = key) then v else Get t k)
    ∧ Checked.Put_rec n t key v = Some (Put_rec n t key v).

(** [res] is the longest prefix of [key] that has a value under [get],
    with that value; or the empty string and no value when no prefix of
    [key] has one. *)
Definition longest_prefix (get : bstring → option V) (key : bstring)
    (res : bstring * option V) : Prop :=
  match res.2 with
  | Some v =>
      res.1 `prefix_of` key ∧ get res.1 = Some v
      ∧ ∀ q, q `prefix_of` key → get q ≠ None → length q ≤ length res.1
  | None => res.1 = [] ∧ ∀ q, q `prefix_of` key → get q = None
  end.

(** What a traversal of [t] does, in terms of [enum]: it makes the calls
    of [enum] up to the first refusal, returns whether it was allowed to
    finish, and then leaves the buffer as it found it. *)
Definition walk_ok (f : bstring → V → bool) (t : Trie) : Prop :=
  ∀ buf calls,
    ∃ buf',
      forEach f t buf calls
      = (all_continue f (enum t buf), buf', calls ++ stop_at f (enum t buf))
      ∧ (all_continue f (enum t buf) = true → buf' = buf)
      ∧ Checked.forEach f t buf calls = Some (forEach f t buf calls).

(** [reach t path n]: following the bytes of [path] from [t] leads to the
    node [n]; [path] is the accumulated path of [n], without the suffix of
    [n] itself. *)
Inductive reach : Trie → bstring → Trie → Prop :=
| reach_here t : reach t [] t
| reach_child t c path n :
    out_of_range t c = false →
    reach (child_at (children t) (idx c (base t))) path n →
    reach t (suffix t ++ c :: path) n.

(** The result of [subtrie t key], for a given reading [count] of the
    integer it returns: a node [n] reached by a path such that [key] is
    that path followed by [rest], a part of the suffix of [n]; or nothing
    when [key] is no such path. *)
Definition locates (count : Trie → bstring → nat) (t : Trie) (key : bstring)
    (r : option (Trie * nat)) : Prop :=
  match r with
  | Some (n, s) =>
      ∃ path rest, key = path ++ rest ∧ reach t path n
                   ∧ rest `prefix_of` suffix n ∧ s = count n rest
  | None =>
      ¬ ∃ n path rest, key = path ++ rest ∧ reach t path n
                       ∧ rest `prefix_of` suffix n
  end.

(** The number of trailing characters of the node's suffix that the
    prefix has not consumed. *)
Definition unconsumed (n : Trie) (rest : bstring) : nat :=
  length (suffix n) - length rest.

(** The number of leading characters of the node's suffix that the prefix
    has consumed. *)
Definition consumed (n : Trie) (rest : bstring) : nat := length rest.

End Spec.

(** ** Further functions of the package *)

(** A Go [int] of [w] bits: the value of an arithmetic result after
    wrap-around. *)
Definition int_wrap (w z : Z) : Z :=
  ((z + 2 ^ (w - 1)) mod 2 ^ w - 2 ^ (w - 1))%Z.

(** [%d] of a number. *)
Definition decimal (z : Z) : bstring :=
  list_ascii_of_string (NilZero.string_of_int (Z.to_int z)).

(** [const spaces]: eighty blanks. *)
Definition spaces : bstring := replicate 80 " "%char.

(** [spaces[:n]]; the slice expression panics out of range. *)
Definition indent (n : Z) : option bstring :=
  if (0 <=? n)%Z && (n <=? Z.of_nat (length spaces))%Z
  then Some (take (Z.to_nat n) spaces) else None.

(** [byteEqual] of the test file; [None] stands for a panic of [b[i]]. *)
Fixpoint byteEqual_from (i : nat) (a b : bstring) : option bool :=
  match a with
  | [] => Some true
  | v :: a' =>
      bi ← Checked.index b i;
      if negb (Ascii.eqb v bi) then Some false else byteEqual_from (S i) a' b
  end.

Definition byteEqual (a b : bstring) : option bool :=
  if negb (length a =? length b) then Some false else byteEqual_from 0 a b.

Section Debug.
Context {V : Type}.
Abbreviation Trie := (Trie V).

(** ** shape: the number of values and the number of nodes *)

Definition shape_children (visit : Trie → Z * Z) (w : Z)
  : list Trie → Z * Z → Z * Z :=
  fix go cs acc :=
    match cs with
    | [] => acc
    | c :: cs' =>
        let '(l, s) := visit c in
        go cs' (int_wrap w (acc.1 + l), int_wrap w (acc.2 + s))
    end.

Fixpoint shape (w : Z) (t : Trie) : Z * Z :=
  let ln := match value t with Some _ => int_wrap w (0 + 1) | None => 0%Z end in
  let sz := int_wrap w (0 + 1) in
  shape_children (shape w) w (children t) (ln, sz).

(** What [shape] returns on [t], for every path given to [enum]. *)
Definition shape_counts (w : Z) (t : Trie) : Prop :=
  (Z.of_nat (length (nodes t)) < 2 ^ (w - 1))%Z →
  ∀ path,
    shape w t = (Z.of_nat (length (enum t path)), Z.of_nat (length (nodes t)))
    ∧ length (enum t path) ≤ length (nodes t).

(** ** dump *)

(** [%v] of a value; the nil interface prints as [<nil>]. *)
Definition show_value (show : V → bstring) (o : option V) : bstring :=
  match o with Some v => show v | None => bs "<nil>" end.

(** The label printed in front of a child: ['%c'] for a byte from 32 to
    127, [%d] otherwise. *)
Definition child_label (c : byte) : bstring :=
  if (32 <=? b2z c)%Z && (b2z c <? 128)%Z then bs "['" ++ [c] ++ bs "']"
  else bs "[" ++ decimal (b2z c) ++ bs "]".

(** Lines 313-324: the loop over the children.  [out] is what has been
    printed so far, one entry for each [Printf]. *)
Definition dump_children (visit : Trie → Z → list bstring → option (list bstring))
    (w level : Z) : list Trie → byte → list bstring → option (list bstring) :=
  fix go cs c out :=
    match cs with
    | [] => Some out
    | ch :: cs' =>
        out' ← (if is_empty_node ch then Some out
                else
                  ind ← indent (int_wrap w (4 * level));
                  visit ch (int_wrap w (level + 1)) (out ++ [ind ++ child_label c]));
        go cs' (byte_inc c) out'
    end.

(** [dump] prints the node and the non-empty children below it; [None]
    stands for the panic of a slice expression [spaces[:4*level]]. *)
Fixpoint dump (show : V → bstring) (w : Z) (t : Trie) (level : Z)
    (out : list bstring) : option (list bstring) :=
  let level := if (Z.of_nat (length spaces) <? level)%Z
               then Z.of_nat (length spaces) else level in
  let out1 := out ++ [suffix t ++ bs ": " ++ show_value show (value t)
                        ++ [ascii_of_nat 10]] in
  out2 ← match children t with
         | [] => Some out1
         | _ =>
             ind ← indent (int_wrap w (4 * level));
             Some (out1 ++ [ind ++ bs "<" ++ decimal (Z.of_nat (length (children t)))
                              ++ bs ">" ++ [ascii_of_nat 10]])
         end;
  dump_children (dump show w) w level (children t) (base t) out2.

(** The number of levels of child arrays below a node. *)
Fixpoint height (t : Trie) : nat :=
  match children t with
  | [] => 0
  | _ => S (foldr Nat.max 0 (map height (children t)))
  end.

End Debug.

(** ** Example tries *)

(** The trie of [TestFindAllPfx]. *)
Definition ex_all : list (bstring * option nat) :=
  [(bs "aaaa", Some 1); (bs "aabb", Some 2); (bs "aa", Some 3)].

(** The trie of [TestFindPfx]. *)
Definition ex_foo : list (bstring * option nat) :=
  [(bs "fooaaaa", Some 1); (bs "foocdef", Some 2)].

(** A chain of three keys, each a prefix of the next. *)
Definition ex_chain : list (bstring * option nat) :=
  [(bs "a", Some 1); (bs "ab", Some 2); (bs "abc", Some 3)].

(** Two keys without a common prefix. *)
Definition ex_pair : list (bstring * option nat) :=
  [(bs "a", Some 1); (bs "b", Some 2)].

(** A single key. *)
Definition ex_single : list (bstring * option nat) := [(bs "abcde", Some 1)].

Definition go_on {V} : bstring → V → bool := fun _ _ => true.

(** ** subtrie against the stored keys *)

Section SubtrieSpec.
Context {V : Type}.
Implicit Types (ops : list (bstring * option V)) (p : bstring).

(** [p] is a valid path of the trie built by [ops]: some key that holds a
    value starts with [p]. *)
Definition valid_path ops p : Prop :=
  ∃ k v, p `prefix_of` k ∧ stored ops k = Some v.

(** The answer of [subtrie] on the prefix [p] as the specification words
    it, for a reading [count] of the returned integer: a returned node is
    reached by a path such that [p] is that path followed by [rest], a
    part of the node's suffix, and the integer is [count] of them; and the
    answer is nil when [p] is not a valid path. *)
Definition subtrie_claim (count : Trie V → bstring → nat) ops p
    (r : option (Trie V * nat)) : Prop :=
  match r with
  | Some (n, s) =>
      ∃ path rest, p = path ++ rest ∧ reach (build ops) path n
                   ∧ rest `prefix_of` suffix n ∧ s = count n rest
  | None => True
  end
  ∧ (¬ valid_path ops p → r = None).

(** What [subtrie] does answer.  A returned node is reached as above, the
    integer counts the characters of its suffix that [p] has consumed,
    and the traversal of the node, started as [ForEachPfx] starts it with
    [p[:len(p)-s]] in the buffer, visits exactly the stored pairs whose
    keys start with [p]; so the node holds no value at all when [p] is
    not a valid path.  The answer nil is given only when [p] is not a
    valid path. *)
Definition subtrie_answer ops p (r : option (Trie V * nat)) : Prop :=
  match r with
  | Some (n, s) =>
      (∃ path rest, p = path ++ rest ∧ reach (build ops) path n
                    ∧ rest `prefix_of` suffix n ∧ s = consumed n rest)
      ∧ ∀ k v, (k, v) ∈ (forEach go_on n (take (length p - s) p) []).2
               ↔ p `prefix_of` k ∧ stored ops k = Some v
  | None => ¬ valid_path ops p
  end.

End SubtrieSpec.

(** * Verification *)

(** ** Bytes *)

Lemma b2z_range (b : byte) : (0 ≤ b2z b < 256)%Z.
Proof.
  unfold b2z. pose proof (N_ascii_bounded b). lia.
Qed.

Lemma b2z_z2b (z : Z) : b2z (z2b z) = (z mod 256)%Z.
Proof.
  unfold b2z, z2b.
  pose proof (Z.mod_pos_bound z 256 ltac:(lia)) as Hm.
  rewrite N_ascii_embedding by lia. lia.
Qed.

Lemma z2b_b2z (b : byte) : z2b (b2z b) = b.
Proof.
  unfold b2z, z2b. pose proof (N_ascii_bounded b).
  rewrite Z.mod_small by lia.
  rewrite N2Z.id. apply ascii_N_embedding.
Qed.

Lemma b2z_inj (a b : byte) : b2z a = b2z b → a = b.
Proof.
  intros H. rewrite <- (z2b_b2z a), <- (z2b_b2z b). by rewrite H.
Qed.

Lemma b2z_small (z : Z) : (0 ≤ z < 256)%Z → b2z (z2b z) = z.
Proof. intros. rewrite b2z_z2b. by apply Z.mod_small. Qed.

Lemma byte_eqb_eq (x y : byte) : Ascii.eqb x y = bool_decide (x = y).
Proof.
  destruct (Ascii.eqb_spec x y); [rewrite bool_decide_true | rewrite bool_decide_false]; done.
Qed.

(** The mask [^byte(newlen-1)] rounds a base down to a multiple of
    [newlen], for every power of two up to 256. *)
Lemma mask_round_down (b : byte) (j : Z) :
  (0 ≤ j ≤ 8)%Z →
  b2z (byte_and b (byte_not (z2b (2 ^ j - 1)))) = (2 ^ j * (b2z b / 2 ^ j))%Z.
Proof.
  intros Hj.
  assert (j = 0 ∨ j = 1 ∨ j = 2 ∨ j = 3 ∨ j = 4 ∨ j = 5 ∨ j = 6 ∨ j = 7 ∨ j = 8)%Z
    as Hcases by lia.
  destruct b as [[] [] [] [] [] [] [] []];
    repeat (destruct Hcases as [-> | Hcases]; [vm_compute; reflexivity |]);
    subst j; vm_compute; reflexivity.
Qed.

Lemma pow2_pos (j : Z) : (0 ≤ j)%Z → (0 < 2 ^ j)%Z.
Proof. intros. by apply Z.pow_pos_nonneg. Qed.

Lemma round_down_le (b m : Z) : (0 ≤ b)%Z → (0 < m)%Z → (0 ≤ m * (b / m) ≤ b)%Z.
Proof.
  intros Hb Hm. pose proof (Z.mul_div_le b m Hm).
  pose proof (Z.div_pos b m Hb Hm). nia.
Qed.

Lemma round_down_coarser (b j j' : Z) :
  (0 ≤ j ≤ j')%Z →
  ((2 ^ j * (b / 2 ^ j)) / 2 ^ j' = b / 2 ^ j')%Z.
Proof.
  intros Hj.
  replace j' with (j + (j' - j))%Z at 1 2 by lia.
  rewrite Z.pow_add_r by lia.
  pose proof (pow2_pos j ltac:(lia)). pose proof (pow2_pos (j' - j) ltac:(lia)).
  rewrite <- !Z.div_div by lia.
  rewrite (Z.mul_comm (2 ^ j)), Z.div_mul by lia. done.
Qed.

(** ** The doubling loop *)

Lemma window_256 (c b : byte) : (b2z b mod 2 ^ 8 = 0)%Z → out_of_window c b (2 ^ 8) = false.
Proof.
  intros Hb. pose proof (b2z_range b). pose proof (b2z_range c).
  change (2 ^ 8)%Z with 256%Z in *.
  rewrite Z.mod_small in Hb by lia.
  unfold out_of_window. apply orb_false_iff. split; [apply Z.ltb_ge | apply Z.leb_gt]; lia.
Qed.

Lemma grow_spec (fuel : nat) (c b : byte) (j : Z) :
  (0 ≤ j ≤ 8)%Z → (8 - j ≤ Z.of_nat fuel)%Z → (b2z b mod 2 ^ j = 0)%Z →
  ∃ j', (j ≤ j' ≤ 8)%Z
        ∧ grow fuel c b (2 ^ j) = (z2b (2 ^ j' * (b2z b / 2 ^ j')), (2 ^ j')%Z)
        ∧ Checked.grow fuel c b (2 ^ j) = Some (grow fuel c b (2 ^ j))
        ∧ out_of_window c (z2b (2 ^ j' * (b2z b / 2 ^ j'))) (2 ^ j') = false.
Proof.
  revert b j. induction fuel as [|fuel IH]; intros b j Hj Hfuel Hb.
  - assert (j = 8)%Z as -> by lia.
    exists 8%Z. pose proof (window_256 c b Hb) as Hw.
    assert (z2b (2 ^ 8 * (b2z b / 2 ^ 8)) = b) as Hsame.
    { rewrite <- (z2b_b2z b) at 2. f_equal.
      pose proof (Z.div_mod (b2z b) (2 ^ 8) ltac:(done)). lia. }
    rewrite Hsame. cbn [grow Checked.grow]. rewrite Hw. done.
  - cbn [grow Checked.grow].
    destruct (out_of_window c b (2 ^ j)) eqn:Hw.
    + assert (j < 8)%Z as Hlt.
      { destruct (decide (j = 8)%Z) as [-> | ?]; [|lia].
        rewrite window_256 in Hw; done. }
      replace (2 ^ j * 2)%Z with (2 ^ (j + 1))%Z
        by (rewrite Z.pow_add_r by lia; lia).
      set (b' := byte_and b (byte_not (z2b (2 ^ (j + 1) - 1)))).
      assert (b2z b' = 2 ^ (j + 1) * (b2z b / 2 ^ (j + 1)))%Z as Hb'
        by (apply mask_round_down; lia).
      destruct (IH b' (j + 1)%Z) as (j' & Hj' & Hg & Hc & Hout); [lia | lia | |].
      { rewrite Hb'. rewrite Z.mul_comm. apply Z.mod_mul.
        pose proof (pow2_pos (j + 1)). lia. }
      exists j'. rewrite Hb', round_down_coarser in Hg, Hout by lia.
      split; [lia|]. by rewrite Hc, Hg.
    + exists j. split; [lia|].
      assert (z2b (2 ^ j * (b2z b / 2 ^ j)) = b) as Hsame.
      { rewrite <- (z2b_b2z b) at 2. f_equal.
        pose proof (pow2_pos j ltac:(lia)).
        pose proof (Z.div_mod (b2z b) (2 ^ j) ltac:(lia)). lia. }
      by rewrite Hsame.
Qed.

(** ** Strings *)

Lemma strip_spec (a k r : bstring) : strip a k = Some r ↔ k = a ++ r.
Proof.
  revert k. induction a as [|x a IH]; intros k; cbn.
  - split; congruence.
  - destruct k as [|y k]; [split; discriminate|].
    rewrite byte_eqb_eq. case_bool_decide as Hxy.
    + subst y. rewrite IH. split; congruence.
    + split; [discriminate | congruence].
Qed.

Lemma strip_app_same (a r : bstring) : strip a (a ++ r) = Some r.
Proof. by apply strip_spec. Qed.

Lemma strip_self (a : bstring) : strip a a = Some [].
Proof. apply strip_spec. by rewrite app_nil_r. Qed.

Lemma strip_app (p q k : bstring) : strip (p ++ q) k = strip p k ≫= strip q.
Proof.
  revert k. induction p as [|x p IH]; intros k; cbn; [done|].
  destruct k as [|y k]; [done|]. destruct (Ascii.eqb x y); [apply IH | done].
Qed.

Lemma strip_None_prefix (a k : bstring) : strip a k = None ↔ ¬ a `prefix_of` k.
Proof.
  split.
  - intros Hs [r Hr]. apply strip_spec in Hr. congruence.
  - intros Hn. destruct (strip a k) as [r|] eqn:Hs; [|done].
    apply strip_spec in Hs. destruct Hn. by exists r.
Qed.

Lemma commonPrefix_le_r (a k : bstring) : commonPrefix a k ≤ length k.
Proof.
  revert k. induction a as [|x a IH]; intros [|y k]; cbn; try lia.
  destruct (Ascii.eqb x y); cbn; [specialize (IH k)|]; lia.
Qed.

Lemma commonPrefix_le_l (a k : bstring) : commonPrefix a k ≤ length a.
Proof.
  revert k. induction a as [|x a IH]; intros [|y k]; cbn; try lia.
  destruct (Ascii.eqb x y); cbn; [specialize (IH k)|]; lia.
Qed.

Lemma commonPrefix_app (a r : bstring) : commonPrefix a (a ++ r) = length a.
Proof.
  induction a as [|x a IH]; cbn; [by destruct r|].
  rewrite Ascii.eqb_refl. by rewrite IH.
Qed.

(** Where the common prefix stops short of [a]: either the key is used up,
    or the two strings differ at that position. *)
Lemma commonPrefix_diverge (a k : bstring) :
  strip a k = None →
  ∃ p x a' r, a = p ++ x :: a' ∧ k = p ++ r ∧ commonPrefix a k = length p
              ∧ (r = [] ∨ ∃ y b', r = y :: b' ∧ x ≠ y).
Proof.
  revert k. induction a as [|x a IH]; intros k; cbn; [discriminate|].
  destruct k as [|y k].
  - intros _. exists [], x, a, []. cbn. auto.
  - rewrite byte_eqb_eq. case_bool_decide as Hxy.
    + subst y. intros Hs. destruct (IH k Hs) as (p & x' & a' & r & -> & -> & Hcp & Hr).
      exists (x :: p), x', a', r. cbn. rewrite Hcp. auto.
    + intros _. exists [], x, a, (y :: k). cbn. split_and!; eauto.
Qed.

Lemma commonPrefix_strip (a k r : bstring) :
  strip a k = Some r → commonPrefix a k = length a.
Proof. intros ->%strip_spec. apply commonPrefix_app. Qed.

Lemma commonPrefix_strip_None (a k : bstring) :
  strip a k = None → commonPrefix a k < length a.
Proof.
  intros (p & x & a' & r & -> & -> & -> & _)%commonPrefix_diverge.
  rewrite length_app. cbn. lia.
Qed.

Lemma byte_at_middle (p : bstring) (c : byte) (r : bstring) :
  byte_at (p ++ c :: r) (length p) = c.
Proof. unfold byte_at. by rewrite list_lookup_middle by done. Qed.

Lemma lookup_middle_Some (p : bstring) (c : byte) (r : bstring) :
  (p ++ c :: r) !! length p = Some c.
Proof. by apply list_lookup_middle. Qed.

Lemma drop_S_middle {A} (p : list A) (c : A) (r : list A) :
  drop (S (length p)) (p ++ c :: r) = r.
Proof.
  rewrite (cons_middle c p r), app_assoc.
  rewrite drop_app_length'; [done|]. rewrite length_app. cbn. lia.
Qed.

Lemma take_S_middle {A} (p : list A) (c : A) (r : list A) :
  take (S (length p)) (p ++ c :: r) = p ++ [c].
Proof.
  rewrite (cons_middle c p r), app_assoc.
  rewrite take_app_length'; [done|]. rewrite length_app. cbn. lia.
Qed.

Lemma eqb_length_middle {A} (p : list A) (c : A) (r : list A) :
  (length p =? length (p ++ c :: r)) = false.
Proof. apply Nat.eqb_neq. rewrite length_app. cbn. lia. Qed.

Lemma leb_S_length_middle {A} (p : list A) (c : A) (r : list A) :
  (S (length p) <=? length (p ++ c :: r)) = true.
Proof. apply Nat.leb_le. rewrite length_app. cbn. lia. Qed.

(** Simplify the tests and slices of a step whose key is
    [suffix ++ c :: rest]. *)
Ltac key_goes_on :=
  unfold Checked.index, Checked.slice_from, Checked.slice_to;
  rewrite ?commonPrefix_app, ?Nat.ltb_irrefl, ?eqb_length_middle,
    ?leb_S_length_middle, ?byte_at_middle, ?drop_S_middle, ?take_S_middle,
    ?lookup_middle_Some;
  cbn [mbind option_bind].

(** ** One step of each read operation

    Every operation compares the suffix of the node with the key.  The
    three outcomes are read off [strip]: the suffix is not a prefix of the
    key, the key is the suffix, or the key goes on with a byte [c]. *)

Section Steps.
Context {V : Type}.
Implicit Types (t : Trie V) (k key rest : bstring) (c : byte).

Lemma tests_None t k :
  strip (suffix t) k = None →
  (commonPrefix (suffix t) k <? length (suffix t)) = true.
Proof. intros H%commonPrefix_strip_None. by apply Nat.ltb_lt. Qed.

Lemma tests_exact t :
  (commonPrefix (suffix t) (suffix t) <? length (suffix t)) = false
  ∧ (commonPrefix (suffix t) (suffix t) =? length (suffix t)) = true.
Proof.
  rewrite (commonPrefix_strip _ _ _ (strip_self _)).
  by rewrite Nat.ltb_irrefl, Nat.eqb_refl.
Qed.

Lemma tests_more t c rest :
  let k := suffix t ++ c :: rest in
  let s := commonPrefix (suffix t) k in
  s = length (suffix t)
  ∧ (s <? length (suffix t)) = false
  ∧ (s =? length k) = false
  ∧ byte_at k s = c ∧ k !! s = Some c
  ∧ drop (S s) k = rest ∧ take (S s) k = suffix t ++ [c].
Proof.
  cbn zeta. rewrite commonPrefix_app, Nat.ltb_irrefl.
  rewrite byte_at_middle, drop_S_middle, take_S_middle, lookup_middle_Some.
  split_and!; try done.
  apply Nat.eqb_neq. rewrite length_app. cbn. lia.
Qed.

Lemma out_of_range_nil t c : children t = [] → out_of_range t c = true.
Proof.
  intros Hnil. unfold out_of_range, out_of_window. rewrite Hnil. cbn.
  destruct (Z.ltb_spec (b2z c) (b2z (base t))); [done|].
  cbn. apply Z.leb_le. lia.
Qed.

Lemma child_for_nil t c : children t = [] → child_for t c = zero.
Proof. intros H. unfold child_for. by rewrite out_of_range_nil. Qed.

Lemma Get_rec_step n t k :
  Get_rec (S n) t k =
    match strip (suffix t) k with
    | None => None
    | Some [] => value t
    | Some (c :: rest) =>
        if out_of_range t c then None
        else Get_rec n (child_at (children t) (idx c (base t))) rest
    end.
Proof.
  cbn [Get_rec]. destruct (strip (suffix t) k) as [[|c rest]|] eqn:Hs.
  - apply strip_spec in Hs. rewrite app_nil_r in Hs. subst k.
    destruct (tests_exact t) as [-> ->]. done.
  - apply strip_spec in Hs. subst k.
    destruct (tests_more t c rest) as (_ & -> & -> & -> & _ & -> & _). done.
  - by rewrite tests_None.
Qed.

Lemma Get_rec_fuel n m t k :
  length k < n → length k < m → Get_rec n t k = Get_rec m t k.
Proof.
  revert m t k. induction n as [|n IH]; intros [|m] t k Hn Hm; try lia.
  rewrite !Get_rec_step.
  destruct (strip (suffix t) k) as [[|c rest]|] eqn:Hs; try done.
  apply strip_spec in Hs. subst k. rewrite length_app in Hn, Hm. cbn in Hn, Hm.
  destruct (out_of_range t c); [done|]. apply IH; lia.
Qed.

Lemma Get_zero k : Get (@zero V) k = None.
Proof.
  unfold Get. rewrite Get_rec_step. cbn. destruct k as [|c rest]; [done|].
  by rewrite out_of_range_nil.
Qed.

(** [Get] on a node, in terms of [Get] on the selected child. *)
Lemma Get_unfold t k :
  Get t k =
    match strip (suffix t) k with
    | None => None
    | Some [] => value t
    | Some (c :: rest) => Get (child_for t c) rest
    end.
Proof.
  unfold Get at 1. rewrite Get_rec_step.
  destruct (strip (suffix t) k) as [[|c rest]|] eqn:Hs; try done.
  apply strip_spec in Hs. subst k. unfold child_for.
  destruct (out_of_range t c); [by rewrite Get_zero|].
  apply Get_rec_fuel; rewrite ?length_app; cbn; lia.
Qed.

Lemma Get_empty_node t k : is_empty_node t = true → Get t k = None.
Proof.
  unfold is_empty_node. intros He.
  destruct (children t) eqn:Hc; [|done]. destruct (value t) eqn:Hv; [done|].
  rewrite Get_unfold, Hv.
  destruct (strip (suffix t) k) as [[|c rest]|]; try done.
  by rewrite child_for_nil, Get_zero.
Qed.

(** A node answers [Get] through its suffix, its value and the children
    it selects; two nodes that agree on these answer alike. *)
Lemma Get_ext t t' k :
  suffix t = suffix t' → value t = value t' →
  (∀ c, child_for t c = child_for t' c) → Get t k = Get t' k.
Proof.
  intros Hs Hv Hc. rewrite (Get_unfold t), (Get_unfold t'), Hs, Hv.
  destruct (strip (suffix t') k) as [[|c rest]|]; try done. by rewrite Hc.
Qed.

End Steps.

(** ** The child array as a window of bytes *)

Lemma window_spec (c b : byte) (l : Z) :
  out_of_window c b l = false ↔ (b2z b ≤ b2z c < b2z b + l)%Z.
Proof.
  unfold out_of_window. rewrite orb_false_iff, Z.ltb_ge, Z.leb_gt. lia.
Qed.

(** After eight doublings the length is a multiple of 256, the mask is 0
    and the window is all of the bytes: the loop has left by then. *)
Lemma grow_exits_from (fuel : nat) (c b : byte) (l : Z) :
  (1 ≤ l)%Z → fuel ≤ 8 → (l mod 2 ^ (8 - Z.of_nat fuel) = 0)%Z →
  (fuel = 0 → b2z b = 0%Z) →
  out_of_window c (grow fuel c b l).1 (grow fuel c b l).2 = false
  ∧ Checked.grow fuel c b l = Some (grow fuel c b l).
Proof.
  revert b l. induction fuel as [|fuel IH]; intros b l Hl Hfuel Hmod Hzero.
  - pose proof (b2z_range c). specialize (Hzero eq_refl).
    change (2 ^ (8 - Z.of_nat 0))%Z with 256%Z in Hmod.
    pose proof (Z.div_mod l 256 ltac:(done)) as Hdiv. rewrite Hmod in Hdiv.
    assert (out_of_window c b l = false) as Hw by (apply window_spec; lia).
    cbn [grow Checked.grow fst snd]. by rewrite Hw.
  - cbn [grow Checked.grow].
    destruct (out_of_window c b l) eqn:Hw; [|by cbn [fst snd]].
    apply IH; [lia | lia | |].
    + replace (8 - Z.of_nat fuel)%Z with (1 + (8 - Z.of_nat (S fuel)))%Z by lia.
      rewrite Z.pow_add_r by lia. change (2 ^ 1)%Z with 2%Z.
      pose proof (pow2_pos (8 - Z.of_nat (S fuel)) ltac:(lia)).
      rewrite (Z.mul_comm l 2), Z.mul_mod_distr_l by lia. lia.
    + intros ->. change (2 ^ (8 - Z.of_nat 1))%Z with 128%Z in Hmod.
      assert ((l * 2 - 1) mod 256 = 255)%Z as Hlow.
      { pose proof (Z.div_mod l 128 ltac:(done)) as Hdiv. rewrite Hmod in Hdiv.
        replace (l * 2 - 1)%Z with (255 + (l / 128 - 1) * 256)%Z by lia.
        by rewrite Z.mod_add. }
      unfold byte_and, byte_not. rewrite !b2z_z2b, Hlow.
      change (Z.lxor 255 255 mod 256)%Z with 0%Z. by rewrite Z.land_0_r.
Qed.

Lemma grow_exits (c b : byte) (l : Z) :
  (1 ≤ l)%Z →
  out_of_window c (grow grow_budget c b l).1 (grow grow_budget c b l).2 = false
  ∧ Checked.grow grow_budget c b l = Some (grow grow_budget c b l).
Proof.
  intros Hl. apply grow_exits_from; [done | done | apply Z.mod_1_r | done].
Qed.

Lemma byte_sub_in (c b : byte) :
  (b2z b ≤ b2z c)%Z → b2z (byte_sub c b) = (b2z c - b2z b)%Z.
Proof.
  intros Hle. unfold byte_sub. pose proof (b2z_range c). pose proof (b2z_range b).
  apply b2z_small. lia.
Qed.

Lemma copy_at_lookup {A} (dst src : list A) (off i : nat) :
  off + length src ≤ length dst →
  copy_at dst off src !! i =
    if decide (off ≤ i < off + length src) then src !! (i - off) else dst !! i.
Proof.
  intros Hfit. unfold copy_at.
  rewrite (take_ge src) by lia.
  case_decide as Hi.
  - rewrite lookup_app_r by (rewrite length_take; lia).
    rewrite length_take_le by lia.
    apply lookup_app_l. lia.
  - destruct (decide (i < off)) as [Hlt | Hge].
    + rewrite lookup_app_l by (rewrite length_take; lia).
      rewrite lookup_take. by case_decide.
    + rewrite lookup_app_r by (rewrite length_take; lia).
      rewrite length_take_le by lia.
      rewrite lookup_app_r by lia.
      rewrite lookup_drop. f_equal. lia.
Qed.

Lemma copy_at_length {A} (dst src : list A) (off : nat) :
  off + length src ≤ length dst → length (copy_at dst off src) = length dst.
Proof.
  intros Hfit. unfold copy_at.
  rewrite (take_ge src) by lia.
  rewrite !length_app, length_take_le, length_drop by lia. lia.
Qed.

Lemma copy_at_checked {A} (dst src : list A) (off : nat) :
  off ≤ length dst → Checked.copy_at dst off src = Some (copy_at dst off src).
Proof.
  intros Hoff. unfold Checked.copy_at, Checked.slice_from, copy_at.
  rewrite (proj2 (Nat.leb_le _ _) Hoff). cbn.
  by rewrite length_drop, drop_drop.
Qed.

Section Window.
Context {V : Type}.
Implicit Types (t : Trie V) (c : byte).

Lemma in_range_spec t c :
  out_of_range t c = false ↔
  (b2z (base t) ≤ b2z c < b2z (base t) + Z.of_nat (length (children t)))%Z.
Proof. apply window_spec. Qed.

Lemma idx_spec c (b : byte) :
  (b2z b ≤ b2z c)%Z → idx c b = Z.to_nat (b2z c - b2z b).
Proof. intros. unfold idx. by rewrite byte_sub_in. Qed.

Lemma idx_in_range t c :
  out_of_range t c = false → idx c (base t) < length (children t).
Proof.
  intros Hin%in_range_spec. rewrite idx_spec by lia. lia.
Qed.

Lemma child_at_in_range t c :
  out_of_range t c = false →
  children t !! idx c (base t) = Some (child_for t c).
Proof.
  intros Hin. unfold child_for, child_at. rewrite Hin.
  destruct (lookup_lt_is_Some_2 (children t) (idx c (base t))) as [x Hx];
    [by apply idx_in_range|].
  by rewrite Hx.
Qed.

Lemma wf_inv t : wf t → aligned t ∧ Forall wf (children t).
Proof. by intros [t' ? ?]. Qed.

Lemma wf_zero : wf (@zero V).
Proof. constructor; [by left | constructor]. Qed.

Lemma wf_child_for t c : wf t → wf (child_for t c).
Proof.
  intros [_ Hcs]%wf_inv. unfold child_for, child_at.
  destruct (out_of_range t c); [apply wf_zero|].
  destruct (children t !! idx c (base t)) as [x|] eqn:Hx; [|apply wf_zero].
  by eapply Forall_lookup_1.
Qed.

Lemma child_for_zeros sfx val n b c :
  child_for (mkTrie sfx val (replicate n (@zero V)) b) c = zero.
Proof.
  unfold child_for, child_at. destruct (out_of_range _ c); [done|]. cbn.
  destruct (replicate n zero !! idx c b) as [x|] eqn:Hx; [|done].
  by apply lookup_replicate in Hx as [-> _].
Qed.

(** Writing [new] into the slot of byte [c0] changes the child selected
    by [c0] and no other. *)
Lemma child_for_insert t c0 new sfx val c :
  out_of_range t c0 = false →
  child_for (mkTrie sfx val (<[ idx c0 (base t) := new ]> (children t)) (base t)) c
  = if decide (c = c0) then new else child_for t c.
Proof.
  intros Hin0. pose proof (idx_in_range t c0 Hin0) as Hlt0.
  apply in_range_spec in Hin0.
  unfold child_for at 1. unfold out_of_range. cbn. rewrite length_insert.
  fold (out_of_range t c).
  destruct (out_of_range t c) eqn:Hc.
  - case_decide as Heq; [|by unfold child_for; rewrite Hc].
    subst c. apply in_range_spec in Hin0. congruence.
  - unfold child_at. rewrite list_lookup_insert.
    pose proof Hc as Hc'%in_range_spec.
    case_decide as Hi.
    + destruct Hi as [Hi _]. rewrite !idx_spec in Hi by lia.
      assert (c = c0) as -> by (apply b2z_inj; lia).
      by rewrite decide_True.
    + rewrite decide_False.
      * by unfold child_for, child_at; rewrite Hc.
      * intros ->. apply Hi. done.
Qed.

Lemma aligned_window t :
  aligned t → children t ≠ [] →
  ∃ j, (0 ≤ j ≤ 8)%Z ∧ Z.of_nat (length (children t)) = (2 ^ j)%Z
       ∧ (b2z (base t) mod 2 ^ j = 0)%Z.
Proof. by intros [? | ?] ?. Qed.

End Window.

(** ** The building blocks of Put *)

Section PutBlocks.
Context {V : Type}.
Implicit Types (t : Trie V) (c : byte) (key : bstring).

Lemma round_down_window (x : byte) (j : Z) (nb : byte) :
  (0 ≤ j)%Z → b2z nb = (2 ^ j * (b2z x / 2 ^ j))%Z →
  out_of_window x nb (2 ^ j) = false ∧ (b2z nb mod 2 ^ j = 0)%Z.
Proof.
  intros Hj Hnb. pose proof (pow2_pos j Hj) as Hpos.
  pose proof (Z.div_mod (b2z x) (2 ^ j) ltac:(lia)).
  pose proof (Z.mod_pos_bound (b2z x) (2 ^ j) Hpos).
  split.
  - apply window_spec. lia.
  - rewrite Hnb, Z.mul_comm. by apply Z.mod_mul; lia.
Qed.

Lemma split_spec t key p x a' :
  suffix t = p ++ x :: a' → p `prefix_of` key → wf t →
  let t1 := split t key (length p) in
  suffix t1 = p ∧ value t1 = None ∧ wf t1 ∧ children t1 ≠ []
  ∧ (∀ c, child_for t1 c =
          if decide (c = x) then mkTrie a' (value t) (children t) (base t)
          else zero)
  ∧ Checked.split t key (length p) = Some t1.
Proof.
  intros Hsfx [r ->] Hwf.
  assert (∃ j nb, (0 ≤ j ≤ 8)%Z
            ∧ (if length p <? length (p ++ r)
               then grow grow_budget (byte_at (p ++ r) (length p)) x 1
               else (x, 1%Z)) = (nb, (2 ^ j)%Z)
            ∧ (if length p <? length (p ++ r)
               then k ← Checked.index (p ++ r) (length p);
                    Checked.grow grow_budget k x 1
               else Some (x, 1%Z)) = Some (nb, (2 ^ j)%Z)
            ∧ b2z nb = (2 ^ j * (b2z x / 2 ^ j))%Z) as (j & nb & Hj & Hg & Hgc & Hnb).
  { destruct r as [|y b'].
    - rewrite app_nil_r, Nat.ltb_irrefl. exists 0%Z, x.
      change (2 ^ 0)%Z with 1%Z. rewrite Z.div_1_r. split_and!; try done; lia.
    - replace (length p <? length (p ++ y :: b')) with true
        by (symmetry; apply Nat.ltb_lt; rewrite length_app; cbn; lia).
      unfold Checked.index. rewrite byte_at_middle, lookup_middle_Some.
      cbn [mbind option_bind].
      destruct (grow_spec grow_budget y x 0) as (j & Hj & Hg & Hc & _);
        [lia | unfold grow_budget; lia | apply Z.mod_1_r |].
      change (2 ^ 0)%Z with 1%Z in Hg, Hc.
      exists j, (z2b (2 ^ j * (b2z x / 2 ^ j))). rewrite Hc, Hg.
      split_and!; try done; try lia.
      pose proof (b2z_range x).
      pose proof (round_down_le (b2z x) (2 ^ j) ltac:(lia) (pow2_pos j ltac:(lia))).
      apply b2z_small. lia. }
  destruct (round_down_window x j nb ltac:(lia) Hnb) as [Hwin Hmod].
  pose proof (pow2_pos j ltac:(lia)) as Hpos.
  set (t0 := mkTrie p None (replicate (Z.to_nat (2 ^ j)) (@zero V)) nb).
  assert (out_of_range t0 x = false) as Hin.
  { unfold out_of_range, t0. cbn. rewrite length_replicate, Z2Nat.id by lia. done. }
  pose proof (idx_in_range t0 x Hin) as Hidx. cbn in Hidx.
  destruct (wf_inv t Hwf) as [Hal Hcs].
  assert (wf (mkTrie a' (value t) (children t) (base t))) as Hold
    by (constructor; done).
  unfold split, Checked.split, Checked.index, Checked.make, Checked.store,
    Checked.slice_from, Checked.slice_to, make.
  rewrite Hsfx, byte_at_middle, lookup_middle_Some, drop_S_middle.
  rewrite take_app_length. unfold Checked.index in Hgc.
  cbn [mbind option_bind]. rewrite Hg, Hgc.
  cbn [mbind option_bind].
  replace (0 <=? 2 ^ j)%Z with true by (symmetry; apply Z.leb_le; lia).
  cbn [mbind option_bind].
  replace (S (length p) <=? length (p ++ x :: a')) with true
    by (symmetry; apply Nat.leb_le; rewrite length_app; cbn; lia).
  replace (length p <=? length (p ++ x :: a')) with true
    by (symmetry; apply Nat.leb_le; rewrite length_app; cbn; lia).
  cbn [mbind option_bind].
  rewrite (proj2 (Nat.ltb_lt _ _) Hidx). cbn [mbind option_bind].
  split_and!; try done.
  - constructor; cbn.
    + right. exists j. cbn. rewrite length_insert, length_replicate, Z2Nat.id by lia. done.
    + apply Forall_insert; [|done]. apply Forall_replicate, wf_zero.
  - cbn. intros Hnil. apply (f_equal length) in Hnil.
    rewrite length_insert, length_replicate in Hnil. cbn in Hnil. lia.
  - intros c. rewrite (child_for_insert t0 x _ p None c Hin).
    case_decide; [done|]. apply child_for_zeros.
Qed.

(** Rounding an aligned base down to a coarser power of two gives a
    window that contains the old one. *)
Lemma window_grows (b j j' : Z) :
  (0 ≤ j ≤ j')%Z → (0 ≤ b)%Z → (b mod 2 ^ j = 0)%Z →
  (2 ^ j' * (b / 2 ^ j') ≤ b ∧ b + 2 ^ j ≤ 2 ^ j' * (b / 2 ^ j') + 2 ^ j')%Z.
Proof.
  intros Hj Hb Hmod.
  pose proof (pow2_pos j ltac:(lia)) as HL.
  pose proof (pow2_pos (j' - j) ltac:(lia)) as HM.
  replace j' with (j + (j' - j))%Z by lia.
  rewrite Z.pow_add_r by lia.
  set (L := (2 ^ j)%Z) in *. set (M := (2 ^ (j' - j))%Z) in *.
  rewrite <- Z.div_div by lia.
  pose proof (Z.div_mod b L ltac:(lia)) as Hq. rewrite Hmod in Hq.
  set (q := (b / L)%Z) in *.
  pose proof (Z.div_mod q M ltac:(lia)) as Hq'.
  pose proof (Z.mod_pos_bound q M HM) as Hr.
  set (q' := (q / M)%Z) in *. set (r := (q mod M)%Z) in *.
  split; nia.
Qed.

Lemma reserve_spec t c0 :
  wf t →
  let t2 := reserve t c0 in
  suffix t2 = suffix t ∧ value t2 = value t ∧ wf t2
  ∧ (∀ c, child_for t2 c = child_for t c)
  ∧ out_of_range t2 c0 = false
  ∧ (∀ key s, key !! s = Some c0 → Checked.reserve t key s = Some t2).
Proof.
  intros Hwf. destruct (wf_inv t Hwf) as [Hal Hcs].
  destruct (decide (children t = [])) as [Hnil | Hne].
  - unfold reserve, Checked.reserve, Checked.index. rewrite Hnil. cbn.
    split_and!; try done.
    + constructor; cbn; [|repeat constructor; apply wf_zero].
      right. exists 0%Z. cbn. split_and!; try done. apply Z.mod_1_r.
    + intros c. rewrite (child_for_nil t c Hnil).
      apply (child_for_zeros (suffix t) (value t) 1 c0 c).
    + apply in_range_spec. cbn. change (make (V:=V) 1) with [@zero V]. cbn. lia.
    + intros key s ->. done.
  - destruct (aligned_window t Hal Hne) as (j & Hj & Hlen & Hmod).
    pose proof (b2z_range (base t)) as Hbase.
    destruct (grow_spec grow_budget c0 (base t) j) as (j' & Hj' & Hg & Hgc & Hout);
      [lia | unfold grow_budget; lia | done |].
    destruct (window_grows (b2z (base t)) j j') as [Hlo Hhi]; [lia | lia | done |].
    pose proof (pow2_pos j ltac:(lia)) as Hpj.
    pose proof (pow2_pos j' ltac:(lia)) as Hpj'.
    pose proof (round_down_le (b2z (base t)) (2 ^ j') ltac:(lia) Hpj') as Hrd.
    set (nb := z2b (2 ^ j' * (b2z (base t) / 2 ^ j'))) in *.
    assert (b2z nb = 2 ^ j' * (b2z (base t) / 2 ^ j'))%Z as Hnb
      by (apply b2z_small; lia).
    unfold reserve, Checked.reserve, Checked.index.
    replace (length (children t) =? 0) with false
      by (symmetry; apply Nat.eqb_neq; destruct (children t); [done | cbn; lia]).
    rewrite Hlen, Hg.
    destruct (Z.eqb_spec (2 ^ j') (2 ^ j)) as [Heq | Hneq].
    + apply Z.pow_inj_r in Heq; [|lia..]. subst j'.
      assert (nb = base t) as Hsame.
      { apply b2z_inj. rewrite Hnb.
        pose proof (Z.div_mod (b2z (base t)) (2 ^ j) ltac:(lia)). lia. }
      rewrite Hsame in Hout.
      split_and!; try done.
      * unfold out_of_range. by rewrite Hlen.
      * intros key s ->. cbn [mbind option_bind]. rewrite Hgc, Hg.
        cbn [mbind option_bind]. by rewrite Z.eqb_refl.
    + assert (j < j')%Z as Hlt.
      { destruct (decide (j = j')) as [-> | ?]; [done | lia]. }
      assert (idx (base t) nb = Z.to_nat (b2z (base t) - b2z nb)) as Hoff
        by (apply idx_spec; lia).
      assert (idx (base t) nb + length (children t)
              ≤ length (make (V:=V) (2 ^ j'))) as Hfit.
      { unfold make. rewrite length_replicate, Hoff. lia. }
      assert (length (copy_at (make (2 ^ j')) (idx (base t) nb) (children t))
              = Z.to_nat (2 ^ j')) as Hclen.
      { rewrite copy_at_length by done. unfold make. by rewrite length_replicate. }
      split_and!; try done.
      * constructor; cbn.
        -- right. exists j'. cbn. rewrite Hclen, Z2Nat.id by lia.
           split_and!; try done; try lia.
           rewrite Hnb, Z.mul_comm. apply Z.mod_mul. lia.
        -- apply Forall_lookup. intros i x. rewrite copy_at_lookup by done.
           case_decide.
           ++ intros Hx. by eapply Forall_lookup_1.
           ++ unfold make. intros [-> _]%lookup_replicate. apply wf_zero.
      * intros c. unfold child_for at 1. unfold out_of_range at 1. cbn.
        rewrite Hclen, Z2Nat.id by lia.
        destruct (out_of_range t c) eqn:Hc.
        -- unfold child_for. rewrite Hc.
           destruct (out_of_window c nb (2 ^ j')) eqn:Hw; [done|].
           apply window_spec in Hw.
           unfold child_at. rewrite copy_at_lookup by done.
           rewrite Hoff, (idx_spec c nb) by lia.
           case_decide as Hi.
           ++ exfalso.
              assert (out_of_range t c = false); [|congruence].
              apply in_range_spec. lia.
           ++ unfold make.
              destruct (replicate _ _ !! _) as [x|] eqn:Hx; [|done].
              by apply lookup_replicate in Hx as [-> _].
        -- pose proof Hc as Hc'%in_range_spec.
           replace (out_of_window c nb (2 ^ j')) with false
             by (symmetry; apply window_spec; lia).
           unfold child_for. rewrite Hc. unfold child_at.
           rewrite copy_at_lookup by done.
           rewrite Hoff, (idx_spec c nb), (idx_spec c (base t)) by lia.
           rewrite decide_True by lia.
           do 2 f_equal. lia.
      * unfold out_of_range. cbn. rewrite Hclen, Z2Nat.id by lia. done.
      * intros key s ->. cbn [mbind option_bind]. rewrite Hgc, Hg.
        cbn [mbind option_bind].
        replace (2 ^ j' =? 2 ^ j)%Z with false by (symmetry; by apply Z.eqb_neq).
        unfold Checked.make.
        replace (0 <=? 2 ^ j')%Z with true by (symmetry; apply Z.leb_le; lia).
        cbn [mbind option_bind].
        rewrite copy_at_checked; [done|].
        unfold make in Hfit. lia.
Qed.

Lemma insert_spec t c0 new :
  wf t → wf new → out_of_range t c0 = false →
  let t3 := mkTrie (suffix t) (value t)
              (<[ idx c0 (base t) := new ]> (children t)) (base t) in
  wf t3
  ∧ (∀ c, child_for t3 c = if decide (c = c0) then new else child_for t c).
Proof.
  intros Hwf Hnew Hin. destruct (wf_inv t Hwf) as [Hal Hcs]. split.
  - constructor; cbn; [|by apply Forall_insert].
    destruct Hal as [Hnil | (j & Hj & Hlen & Hmod)].
    + pose proof (out_of_range_nil t c0 Hnil). congruence.
    + right. exists j. cbn. by rewrite length_insert.
  - intros c. by apply child_for_insert.
Qed.

Lemma child_at_reserved t c :
  out_of_range t c = false → child_at (children t) (idx c (base t)) = child_for t c.
Proof. intros Hin. unfold child_at. by rewrite child_at_in_range. Qed.

(** Lines 91-109: reserve a slot for [key[s]] and insert the rest of the
    key below it. *)
Lemma descend_spec n t1 key s c0 rest (v : option V) :
  Put_ok n v →
  length rest < n → wf t1 → key !! s = Some c0 → drop (S s) key = rest →
  let t2 := reserve t1 c0 in
  let i := idx c0 (base t2) in
  let t3 := mkTrie (suffix t2) (value t2)
              (<[ i := Put_rec n (child_at (children t2) i) rest v ]> (children t2))
              (base t2) in
  wf t3 ∧ suffix t3 = suffix t1 ∧ value t3 = value t1
  ∧ (∀ c r, Get (child_for t3 c) r =
            if decide (c = c0 ∧ r = rest) then v else Get (child_for t1 c) r)
  ∧ (t2' ← Checked.reserve t1 key s;
     c ← Checked.index key s;
     child ← Checked.index (children t2') (idx c (base t2'));
     rest' ← Checked.slice_from key (S s);
     child' ← Checked.Put_rec n child rest' v;
     cs ← Checked.store (children t2') (idx c (base t2')) child';
     Some (mkTrie (suffix t2') (value t2') cs (base t2'))) = Some t3.
Proof.
  intros IH Hrest Hwf Hc0 Hdrop.
  destruct (reserve_spec t1 c0 Hwf) as (Hsfx & Hval & Hwf2 & Hch & Hin & Hchk).
  cbn zeta. set (t2 := reserve t1 c0) in *.
  rewrite (child_at_reserved t2 c0 Hin), Hch.
  destruct (IH (child_for t1 c0) rest Hrest (wf_child_for t1 c0 Hwf))
    as (Hwfn & Hget & Hcn).
  set (new := Put_rec n (child_for t1 c0) rest v) in *.
  destruct (insert_spec t2 c0 new Hwf2 Hwfn Hin) as [Hwf3 Hch3].
  split_and!; try done.
  - intros c r. rewrite Hch3. case_decide as Hc.
    + subst c. rewrite Hget. case_decide as Hr.
      * by rewrite decide_True.
      * rewrite decide_False by (intros [_ ?]; done). done.
    + rewrite decide_False by (intros [? _]; done). by rewrite Hch.
  - rewrite (Hchk key s Hc0). unfold Checked.index, Checked.slice_from, Checked.store.
    cbn [mbind option_bind]. rewrite Hc0. cbn [mbind option_bind].
    rewrite (child_at_in_range t2 c0 Hin), Hch. cbn [mbind option_bind].
    assert (S s ≤ length key) as Hs.
    { apply lookup_lt_Some in Hc0. lia. }
    rewrite (proj2 (Nat.leb_le _ _) Hs). cbn [mbind option_bind].
    rewrite Hdrop, Hcn. cbn [mbind option_bind].
    rewrite (proj2 (Nat.ltb_lt _ _) (idx_in_range t2 c0 Hin)). done.
Qed.

(** [Get] on a node whose suffix is [p ++ x :: a'], seen from [p]. *)
Lemma Get_split_view t p x a' k :
  suffix t = p ++ x :: a' →
  Get t k =
    match strip p k with
    | Some (c :: r) =>
        if decide (c = x) then Get (mkTrie a' (value t) (children t) (base t)) r
        else None
    | _ => None
    end.
Proof.
  intros Hsfx. rewrite Get_unfold, Hsfx, strip_app.
  destruct (strip p k) as [[|c r]|]; cbn [mbind option_bind strip]; try done.
  rewrite byte_eqb_eq. case_bool_decide as Hxc.
  - subst c. rewrite decide_True by done. by rewrite (Get_unfold (mkTrie _ _ _ _)).
  - by rewrite decide_False by congruence.
Qed.

Lemma Get_after_value t t' v :
  suffix t' = suffix t → value t' = v → (∀ c, child_for t' c = child_for t c) →
  ∀ k, Get t' k = if decide (k = suffix t) then v else Get t k.
Proof.
  intros Hsfx Hval Hch k. rewrite (Get_unfold t'), (Get_unfold t), Hsfx, Hval.
  destruct (strip (suffix t) k) as [[|c r]|] eqn:Hs.
  - apply strip_spec in Hs. rewrite app_nil_r in Hs. by rewrite decide_True.
  - apply strip_spec in Hs. rewrite Hch, decide_False; [done|].
    intros ->. apply (f_equal length) in Hs. rewrite length_app in Hs. cbn in Hs. lia.
  - rewrite decide_False; [done|]. intros ->. by rewrite strip_self in Hs.
Qed.

Lemma Get_after_descend t t3 c0 rest v :
  suffix t3 = suffix t → value t3 = value t →
  (∀ c r, Get (child_for t3 c) r =
          if decide (c = c0 ∧ r = rest) then v else Get (child_for t c) r) →
  ∀ k, Get t3 k = if decide (k = suffix t ++ c0 :: rest) then v else Get t k.
Proof.
  intros Hsfx Hval Hch k. rewrite (Get_unfold t3), (Get_unfold t), Hsfx, Hval.
  destruct (strip (suffix t) k) as [[|c r]|] eqn:Hs.
  - apply strip_spec in Hs. rewrite app_nil_r in Hs. rewrite decide_False; [done|].
    intros Hk. rewrite Hk in Hs. apply (f_equal length) in Hs.
    rewrite length_app in Hs. cbn in Hs. lia.
  - apply strip_spec in Hs. subst k. rewrite Hch.
    destruct (decide (c = c0 ∧ r = rest)) as [[-> ->] | Hne].
    + by rewrite decide_True.
    + rewrite decide_False; [done|]. intros Heq. apply app_inv_head in Heq.
      apply Hne. by injection Heq.
  - rewrite decide_False; [done|]. intros ->. by rewrite strip_app_same in Hs.
Qed.

(** Splitting a node changes no answer of [Get]. *)
Lemma Get_split t t1 p x a' :
  suffix t = p ++ x :: a' → suffix t1 = p → value t1 = None →
  (∀ c, child_for t1 c =
        if decide (c = x) then mkTrie a' (value t) (children t) (base t) else zero) →
  ∀ k, Get t1 k = Get t k.
Proof.
  intros Hsfx Hsfx1 Hval1 Hch k.
  rewrite (Get_split_view t p x a' k Hsfx), (Get_unfold t1), Hsfx1, Hval1.
  destruct (strip p k) as [[|c r]|]; try done.
  rewrite Hch. case_decide; [done | apply Get_zero].
Qed.

(** Lines 57-84: after the optional split the suffix of the node is a
    prefix of the key. *)
Lemma Put_front t key :
  wf t →
  let s := commonPrefix (suffix t) key in
  let t1 := if s <? length (suffix t) then split t key s else t in
  ∃ r, key = suffix t1 ++ r ∧ s = length (suffix t1) ∧ wf t1
       ∧ (∀ k, Get t1 k = Get t k)
       ∧ (if s <? length (suffix t) then Checked.split t key s else Some t) = Some t1.
Proof.
  intros Hwf. cbn zeta.
  destruct (strip (suffix t) key) as [r|] eqn:Hs.
  - rewrite (commonPrefix_strip _ _ _ Hs), Nat.ltb_irrefl.
    apply strip_spec in Hs. by exists r.
  - rewrite tests_None by done.
    destruct (commonPrefix_diverge _ _ Hs) as (p & x & a' & r & Hsfx & Hkey & -> & _).
    destruct (split_spec t key p x a' Hsfx) as (Hsfx1 & Hval1 & Hwf1 & _ & Hch & Hchk);
      [by exists r | done |].
    exists r. rewrite Hsfx1. split_and!; try done.
    by apply (Get_split t _ p x a').
Qed.

Lemma Put_rec_ok n (v : option V) : Put_ok n v.
Proof.
  induction n as [|n IH]; intros t key Hlen Hwf; [lia|].
  cbn [Put_rec Checked.Put_rec].
  destruct (is_empty_node t) eqn:He.
  - pose proof He as He'. unfold is_empty_node in He'.
    destruct (children t) eqn:Hnil; [|done]. destruct (value t) eqn:Hval; [done|].
    split_and!; [constructor; cbn; [by left | constructor] | | done].
    intros k.
    rewrite (Get_empty_node t k He), Get_unfold. cbn [suffix value].
    destruct (strip key k) as [[|c r]|] eqn:Hs.
    + apply strip_spec in Hs. rewrite app_nil_r in Hs. by rewrite decide_True.
    + apply strip_spec in Hs. rewrite child_for_nil, Get_zero by done.
      rewrite decide_False; [done|].
      intros ->. apply (f_equal length) in Hs. rewrite length_app in Hs. cbn in Hs. lia.
    + rewrite decide_False; [done|]. intros ->. by rewrite strip_self in Hs.
  - destruct (Put_front t key Hwf) as (r & Hkey & Hs & Hwf1 & Hget1 & Hchk1).
    cbn zeta in *.
    set (s := commonPrefix (suffix t) key) in *.
    set (t1 := if s <? length (suffix t) then split t key s else t) in *.
    rewrite Hchk1. cbn [mbind option_bind].
    clearbody t1 s. subst s key.
    destruct (wf_inv t1 Hwf1) as [Hal1 Hcs1].
    destruct r as [|c0 rest].
    + rewrite app_nil_r, Nat.eqb_refl.
      split_and!; [by constructor | | done].
      intros k. rewrite <- Hget1.
      by apply Get_after_value.
    + replace (length (suffix t1) =? length (suffix t1 ++ c0 :: rest)) with false
        by (symmetry; apply Nat.eqb_neq; rewrite length_app; cbn; lia).
      rewrite byte_at_middle, drop_S_middle.
      rewrite length_app in Hlen. cbn in Hlen.
      destruct (descend_spec n t1 (suffix t1 ++ c0 :: rest) (length (suffix t1))
                  c0 rest v IH) as (Hwf3 & Hsfx3 & Hval3 & Hch3 & Hchk3);
        [lia | done | apply lookup_middle_Some | apply drop_S_middle |].
      cbn zeta in *. rewrite Hchk3.
      split_and!; try done.
      intros k. rewrite <- Hget1.
      by apply (Get_after_descend t1 _ c0 rest v).
Qed.

End PutBlocks.

(** ** FindPfx *)

Section FindPfxFacts.
Context {V : Type}.
Implicit Types (t : Trie V) (k key q rest : bstring) (c : byte).

Lemma Get_prefix_cases t c rest q :
  q `prefix_of` suffix t ++ c :: rest → Get t q ≠ None →
  (q = suffix t ∧ Get t q = value t)
  ∨ (∃ r, q = suffix t ++ c :: r ∧ r `prefix_of` rest
          ∧ Get t q = Get (child_for t c) r).
Proof.
  intros Hq. rewrite Get_unfold.
  destruct (strip (suffix t) q) as [[|c' r]|] eqn:Hs; [| |done].
  - apply strip_spec in Hs. rewrite app_nil_r in Hs. by left.
  - apply strip_spec in Hs. subst q. apply prefix_app_inv in Hq.
    pose proof (prefix_cons_inv_1 _ _ _ _ Hq) as ->.
    apply prefix_cons_inv_2 in Hq. intros _. right. by exists r.
Qed.

Lemma Get_own t : Get t (suffix t) = value t.
Proof. by rewrite Get_unfold, strip_self. Qed.

Lemma Get_below t c r : Get t (suffix t ++ c :: r) = Get (child_for t c) r.
Proof. by rewrite Get_unfold, strip_app_same. Qed.

(** When nothing below the child matches, the node's own value is the
    answer. *)
Lemma own_longest t c rest :
  (∀ r, r `prefix_of` rest → Get (child_for t c) r = None) →
  longest_prefix (Get t) (suffix t ++ c :: rest)
    (match value t with Some _ => (suffix t, value t) | None => ([], None) end).
Proof.
  intros Hnone. unfold longest_prefix.
  destruct (value t) as [v|] eqn:Hv; cbn [fst snd].
  - split_and!.
    + by apply prefix_app_r.
    + by rewrite Get_own.
    + intros q Hq Hget.
      destruct (Get_prefix_cases t c rest q Hq Hget) as [[-> _] | (r & -> & Hr & Heq)];
        [done|].
      rewrite Heq, Hnone in Hget; done.
  - split; [done|]. intros q Hq.
    destruct (Get t q) eqn:Hget; [|done]. exfalso.
    destruct (Get_prefix_cases t c rest q Hq) as [[-> Heq] | (r & -> & Hr & Heq)];
      [congruence | | ].
    + rewrite Get_own in Hget. congruence.
    + rewrite Heq, Hnone in Hget; done.
Qed.

Lemma FindPfx_rec_ok n t k :
  length k < n →
  longest_prefix (Get t) k (FindPfx_rec n t k)
  ∧ Checked.FindPfx_rec n t k = Some (FindPfx_rec n t k).
Proof.
  revert t k. induction n as [|n IH]; intros t k Hlen; [lia|].
  cbn [FindPfx_rec Checked.FindPfx_rec].
  destruct (strip (suffix t) k) as [[|c rest]|] eqn:Hs.
  - apply strip_spec in Hs. rewrite app_nil_r in Hs. subst k.
    destruct (tests_exact t) as [-> ->]. split; [|done].
    unfold longest_prefix. destruct (value t) as [v|] eqn:Hv; cbn [fst snd].
    + split_and!; [done | by rewrite Get_own |].
      intros q Hq _. by apply prefix_length.
    + split; [done|]. intros q Hq. rewrite Get_unfold.
      destruct (strip (suffix t) q) as [[|c r]|] eqn:Hsq; try done.
      apply strip_spec in Hsq. subst q. apply prefix_length in Hq.
      rewrite length_app in Hq. cbn in Hq. lia.
  - apply strip_spec in Hs. subst k.
    key_goes_on.
    rewrite length_app in Hlen. cbn in Hlen.
    destruct (out_of_range t c) eqn:Hin.
    + split; [|done]. apply own_longest. intros r _.
      unfold child_for. rewrite Hin. apply Get_zero.
    + rewrite (child_at_reserved t c Hin), (child_at_in_range t c Hin).
      cbn [mbind option_bind].
      destruct (IH (child_for t c) rest ltac:(lia)) as [Hspec ->].
      cbn [mbind option_bind].
      destruct (FindPfx_rec n (child_for t c) rest) as [p [v|]] eqn:Hres.
      * split; [|done]. unfold longest_prefix in *. cbn [fst snd] in *.
        destruct Hspec as (Hp & Hget & Hmax). split_and!.
        -- rewrite <- app_assoc. by apply prefix_app, prefix_cons.
        -- rewrite <- app_assoc. cbn [app]. by rewrite Get_below.
        -- intros q Hq Hq'.
           destruct (Get_prefix_cases t c rest q Hq Hq')
             as [[-> _] | (r & -> & Hr & Heq)].
           ++ rewrite !length_app. lia.
           ++ rewrite Heq in Hq'. specialize (Hmax r Hr Hq').
              rewrite !length_app. cbn. lia.
      * split; [|done]. apply own_longest.
        unfold longest_prefix in Hspec. cbn [fst snd] in Hspec. by destruct Hspec.
  - rewrite tests_None by done. split; [|done].
    split; [done|]. cbn [fst]. intros q [r' Hq]. rewrite Get_unfold.
    destruct (strip (suffix t) q) as [r|] eqn:Hsq; [|done].
    apply strip_spec in Hsq. subst q.
    rewrite <- app_assoc in Hq. apply strip_spec in Hq. congruence.
Qed.

Lemma FindPfx_ok t k :
  longest_prefix (Get t) k (FindPfx t k)
  ∧ Checked.FindPfx t k = Some (FindPfx t k).
Proof. apply FindPfx_rec_ok. lia. Qed.

End FindPfxFacts.

(** ** subtrie *)

Section SubtrieFacts.
Context {V : Type}.
Implicit Types (t n : Trie V) (k key path rest : bstring) (c : byte).

Lemma reach_inv t path n :
  reach t path n →
  (path = [] ∧ n = t)
  ∨ ∃ c path', path = suffix t ++ c :: path' ∧ out_of_range t c = false
               ∧ reach (child_at (children t) (idx c (base t))) path' n.
Proof.
  intros Hr. inversion Hr as [|t' c path' n' Hin Hr']; subst; [by left|].
  right. by exists c, path'.
Qed.

Lemma subtrie_rec_ok fuel t k :
  length k < fuel →
  locates consumed t k (subtrie_rec fuel t k)
  ∧ Checked.subtrie_rec fuel t k = Some (subtrie_rec fuel t k).
Proof.
  revert t k. induction fuel as [|fuel IH]; intros t k Hlen; [lia|].
  cbn [subtrie_rec Checked.subtrie_rec].
  destruct (strip (suffix t) k) as [[|c rest]|] eqn:Hs.
  - apply strip_spec in Hs. rewrite app_nil_r in Hs. subst k.
    rewrite (commonPrefix_strip _ _ _ (strip_self (suffix t))), Nat.eqb_refl.
    split; [|done].
    exists [], (suffix t). split_and!; try done. apply reach_here.
  - apply strip_spec in Hs. subst k. key_goes_on.
    rewrite length_app in Hlen. cbn in Hlen.
    destruct (out_of_range t c) eqn:Hin.
    + split; [|done]. intros (n & path & rest' & Hkey & Hreach & Hpre).
      destruct (reach_inv _ _ _ Hreach) as [[-> ->] | (c' & path' & -> & Hin' & _)].
      * cbn in Hkey. subst rest'. apply prefix_length in Hpre.
        rewrite length_app in Hpre. cbn in Hpre. lia.
      * rewrite <- app_assoc in Hkey. apply app_inv_head in Hkey.
        injection Hkey as -> _. congruence.
    + rewrite (child_at_in_range t c Hin). cbn [mbind option_bind].
      rewrite (child_at_reserved t c Hin).
      destruct (IH (child_for t c) rest ltac:(lia)) as [Hspec ->].
      split; [|done].
      destruct (subtrie_rec fuel (child_for t c) rest) as [[n s]|].
      * destruct Hspec as (path & rest' & -> & Hreach & Hpre & ->).
        exists (suffix t ++ c :: path), rest'. split_and!; try done.
        -- by rewrite <- app_assoc.
        -- apply reach_child; [done|]. by rewrite (child_at_reserved t c Hin).
      * intros (n & path & rest' & Hkey & Hreach & Hpre). apply Hspec.
        destruct (reach_inv _ _ _ Hreach) as [[-> ->] | (c' & path' & -> & Hin' & Hr')].
        -- cbn in Hkey. subst rest'. apply prefix_length in Hpre.
           rewrite length_app in Hpre. cbn in Hpre. lia.
        -- rewrite <- app_assoc in Hkey. apply app_inv_head in Hkey.
           injection Hkey as <- ->.
           rewrite (child_at_reserved t c Hin) in Hr'. by exists n, path', rest'.
  - destruct (commonPrefix_diverge _ _ Hs) as (p & x & a' & r & Hsfx & -> & -> & Hr).
    destruct Hr as [-> | (y & b' & -> & Hxy)].
    + rewrite app_nil_r, Nat.eqb_refl. split; [|done].
      exists [], p. split_and!; try done; [apply reach_here|].
      rewrite Hsfx. by apply prefix_app_r.
    + rewrite eqb_length_middle.
      replace (length p <? length (suffix t)) with true
        by (symmetry; apply Nat.ltb_lt; rewrite Hsfx, length_app; cbn; lia).
      split; [|done]. intros (n & path & rest' & Hkey & Hreach & Hpre).
      destruct (reach_inv _ _ _ Hreach) as [[-> ->] | (c' & path' & -> & Hin' & _)].
      * cbn in Hkey. subst rest'. rewrite Hsfx in Hpre.
        apply prefix_app_inv in Hpre. by apply prefix_cons_inv_1 in Hpre.
      * rewrite <- app_assoc in Hkey. apply strip_spec in Hkey. congruence.
Qed.

Lemma subtrie_ok t k :
  locates consumed t k (subtrie t k)
  ∧ Checked.subtrie t k = Some (subtrie t k).
Proof. apply subtrie_rec_ok. lia. Qed.

End SubtrieFacts.

(** ** forEach *)

Section ForEachFacts.
Context {V : Type}.
Implicit Types (t : Trie V) (f : bstring → V → bool) (l : list (KV V)).

Lemma all_continue_app f l1 l2 :
  all_continue f (l1 ++ l2) = all_continue f l1 && all_continue f l2.
Proof. apply forallb_app. Qed.

Lemma stop_at_all f l : all_continue f l = true → stop_at f l = l.
Proof.
  induction l as [|kv l IH]; [done|]. cbn.
  intros H. apply andb_true_iff in H as [Hkv Hl]. by rewrite Hkv, IH.
Qed.

Lemma stop_at_app f l1 l2 :
  stop_at f (l1 ++ l2) =
    if all_continue f l1 then l1 ++ stop_at f l2 else stop_at f l1.
Proof.
  induction l1 as [|kv l1 IH]; [done|]. cbn.
  destruct (f kv.1 kv.2); cbn; [|done]. rewrite IH.
  fold (all_continue f l1). by destruct (all_continue f l1).
Qed.

Lemma bump_last (p : bstring) (b : byte) :
  alter byte_inc (length p) (p ++ [b]) = p ++ [byte_inc b]
  ∧ Checked.bump (length p) (p ++ [b]) = Some (p ++ [byte_inc b]).
Proof.
  assert (alter byte_inc (length p) (p ++ [b]) = p ++ [byte_inc b]) as Ha.
  { replace (length p) with (length p + 0) at 1 by lia. by rewrite alter_app_r. }
  split; [done|].
  unfold Checked.bump, Checked.index, Checked.store.
  rewrite lookup_middle_Some. cbn [mbind option_bind].
  replace (length p <? length (p ++ [b])) with true
    by (symmetry; apply Nat.ltb_lt; rewrite length_app; cbn; lia).
  f_equal. replace (length p) with (length p + 0) at 1 by lia.
  by rewrite insert_app_r.
Qed.

(** The loop over the children, given that every child is traversed as
    [walk_ok] says. *)
Lemma each_child_enum f (cs : list (Trie V)) :
  Forall (walk_ok f) cs →
  ∀ (p : bstring) (b : byte) calls,
    let E := enum_children enum p cs b in
    ∃ buf',
      each_child (forEach f) (length p) cs (p ++ [b]) calls
      = (all_continue f E, buf', calls ++ stop_at f E)
      ∧ (all_continue f E = true → ∃ b', buf' = p ++ [b'])
      ∧ Checked.each_child (Checked.forEach f) (length p) cs (p ++ [b]) calls
        = Some (each_child (forEach f) (length p) cs (p ++ [b]) calls).
Proof.
  induction 1 as [|c cs Hc Hcs IH]; intros p b calls; cbn zeta.
  - exists (p ++ [b]). cbn. rewrite app_nil_r. split_and!; try done. by exists b.
  - cbn [enum_children each_child Checked.each_child].
    destruct (Hc (p ++ [b]) calls) as (buf1 & Hrun & Hbuf & Hchk).
    rewrite Hchk, Hrun. cbn [mbind option_bind].
    rewrite all_continue_app, stop_at_app.
    destruct (all_continue f (enum c (p ++ [b]))) eqn:Hok.
    + rewrite (Hbuf eq_refl).
      destruct (bump_last p b) as [-> ->]. cbn [mbind option_bind].
      destruct (IH p (byte_inc b) (calls ++ stop_at f (enum c (p ++ [b]))))
        as (buf2 & Hrun2 & Hbuf2 & Hchk2).
      rewrite Hchk2, Hrun2. exists buf2.
      rewrite (stop_at_all f _ Hok), app_assoc. done.
    + exists buf1. cbn. done.
Qed.

Lemma forEach_enum f t : walk_ok f t.
Proof.
  induction t as [t IH] using Trie_nested_ind. intros buf calls.
  destruct t as [sfx val cs b]. cbn [children] in IH.
  cbn [forEach Checked.forEach enum suffix value children base].
  destruct (is_empty_node _) eqn:He.
  { exists buf. cbn. by rewrite app_nil_r. }
  assert (take (length buf) (buf ++ sfx) = buf
          ∧ Checked.slice_to (buf ++ sfx) (length buf) = Some buf) as [Htk Hsl].
  { unfold Checked.slice_to.
    replace (length buf <=? length (buf ++ sfx)) with true
      by (symmetry; apply Nat.leb_le; rewrite length_app; lia).
    by rewrite take_app_length. }
  assert (∀ b', take (length buf) ((buf ++ sfx) ++ [b']) = buf
            ∧ Checked.slice_to ((buf ++ sfx) ++ [b']) (length buf) = Some buf)
    as Htk2.
  { intros b'. unfold Checked.slice_to.
    replace (length buf <=? length ((buf ++ sfx) ++ [b'])) with true
      by (symmetry; apply Nat.leb_le; rewrite !length_app; lia).
    by rewrite <- app_assoc, take_app_length. }
  set (own := match val with Some v => [(buf ++ sfx, v)] | None => [] end).
  set (pair1 := match val with
                | Some v => (f (buf ++ sfx) v, calls ++ [(buf ++ sfx, v)])
                | None => (true, calls)
                end).
  assert (pair1 = (all_continue f own, calls ++ stop_at f own)) as ->.
  { unfold pair1, own. destruct val as [v|]; cbn.
    - rewrite andb_true_r. by destruct (f (buf ++ sfx) v).
    - by rewrite app_nil_r. }
  rewrite all_continue_app, stop_at_app.
  destruct (all_continue f own) eqn:Hown; cbn [negb andb].
  - destruct cs as [|c cs'] eqn:Hcs.
    + exists buf. cbn [enum_children]. rewrite Hsl, Htk. cbn.
      rewrite !app_nil_r, (stop_at_all f own Hown). done.
    + rewrite <- Hcs in *. clear Hcs.
      destruct (each_child_enum f cs IH (buf ++ sfx) b (calls ++ stop_at f own))
        as (buf2 & Hrun & Hbuf & Hchk).
      cbn zeta in *. rewrite Hchk, Hrun. cbn [mbind option_bind].
      rewrite (stop_at_all f own Hown), app_assoc.
      destruct (all_continue f (enum_children enum (buf ++ sfx) cs b)) eqn:Hch.
      * destruct (Hbuf eq_refl) as [b' ->].
        destruct (Htk2 b') as [-> ->]. by exists buf.
      * by exists buf2.
  - exists (buf ++ sfx). done.
Qed.

(** With a callback that never stops, [ForEach] makes exactly the calls
    of [enum]; in general it makes them up to the first refusal. *)
Lemma ForEach_enum f t :
  ForEach f t = stop_at f (enum t [])
  ∧ Checked.ForEach f t = Some (ForEach f t).
Proof.
  unfold ForEach, Checked.ForEach.
  destruct (forEach_enum f t [] []) as (buf' & Hrun & _ & ->).
  by rewrite Hrun.
Qed.

End ForEachFacts.

(** ** The lexicographic order *)

Lemma lex_ltb_app (p a b : bstring) : lex_ltb (p ++ a) (p ++ b) = lex_ltb a b.
Proof.
  induction p as [|x p IH]; [done|]. cbn. by rewrite Z.ltb_irrefl.
Qed.

Lemma lex_ltb_cons_lt (x y : byte) (a b : bstring) :
  (b2z x < b2z y)%Z → lex_ltb (x :: a) (y :: b) = true.
Proof. intros Hlt. cbn. by rewrite (proj2 (Z.ltb_lt _ _) Hlt). Qed.

Lemma lex_ltb_irrefl (a : bstring) : lex_ltb a a = false.
Proof. induction a as [|x a IH]; [done|]. cbn. by rewrite Z.ltb_irrefl. Qed.

Lemma lex_lt_extend (p : bstring) (c : byte) (r : bstring) : lex_lt p (p ++ c :: r).
Proof.
  unfold lex_lt. rewrite <- (app_nil_r p) at 1. rewrite lex_ltb_app. done.
Qed.

Lemma lex_lt_branch (p : bstring) (x y : byte) (a b : bstring) :
  (b2z x < b2z y)%Z → lex_lt (p ++ x :: a) (p ++ y :: b).
Proof. intros. unfold lex_lt. rewrite lex_ltb_app. by apply lex_ltb_cons_lt. Qed.

Lemma StronglySorted_irrefl_NoDup {A} (R : relation A) (l : list A) :
  (∀ x, ¬ R x x) → StronglySorted R l → NoDup l.
Proof.
  intros Hirr. induction 1 as [|x l Hl IH Hall]; constructor; [|done].
  intros Hin. rewrite Forall_forall in Hall. by apply (Hirr x), Hall.
Qed.

(** ** The enumeration of a well-formed trie *)

Section EnumFacts.
Context {V : Type}.
Implicit Types (t : Trie V) (k key path : bstring) (c b : byte).

Lemma z2b_inc_add b (z : Z) : z2b (b2z (byte_inc b) + z) = z2b (b2z b + (1 + z)).
Proof.
  unfold byte_inc. rewrite b2z_z2b. unfold z2b. do 2 f_equal.
  rewrite Z.add_mod_idemp_l by done. f_equal. lia.
Qed.

Lemma elem_of_enum_children (visit : Trie V → bstring → list (KV V)) p cs b kv :
  kv ∈ enum_children visit p cs b ↔
  ∃ i ch, cs !! i = Some ch ∧ kv ∈ visit ch (p ++ [z2b (b2z b + Z.of_nat i)]).
Proof.
  revert b. induction cs as [|c cs IH]; intros b; cbn [enum_children].
  - split; [by intros ?%elem_of_nil | by intros (i & c & ? & _)].
  - rewrite elem_of_app, IH. split.
    + intros [Hin | (i & c' & Hi & Hin)].
      * exists 0, c. rewrite Z.add_0_r, z2b_b2z. done.
      * exists (S i), c'. rewrite z2b_inc_add in Hin.
        replace (Z.of_nat (S i)) with (1 + Z.of_nat i)%Z by lia. done.
    + intros ([|i] & c' & Hi & Hin).
      * left. cbn in Hi. injection Hi as ->.
        by rewrite Z.add_0_r, z2b_b2z in Hin.
      * right. exists i, c'. rewrite z2b_inc_add.
        replace (Z.of_nat (S i)) with (1 + Z.of_nat i)%Z in Hin by lia. done.
Qed.

(** Alignment keeps the window of a child array inside the bytes. *)
Lemma aligned_bound t :
  aligned t → (b2z (base t) + Z.of_nat (length (children t)) ≤ 256)%Z.
Proof.
  pose proof (b2z_range (base t)) as Hb.
  intros [-> | (j & Hj & -> & Hmod)].
  { cbn [length]. lia. }
  pose proof (pow2_pos j ltac:(lia)) as Hp.
  pose proof (pow2_pos (8 - j) ltac:(lia)) as Hp'.
  assert (2 ^ j * 2 ^ (8 - j) = 256)%Z as H256.
  { rewrite <- Z.pow_add_r by lia. by replace (j + (8 - j))%Z with 8%Z by lia. }
  pose proof (Z.div_mod (b2z (base t)) (2 ^ j) ltac:(lia)) as Hq.
  rewrite Hmod in Hq.
  set (L := (2 ^ j)%Z) in *. set (M := (2 ^ (8 - j))%Z) in *.
  set (q := (b2z (base t) / L)%Z) in *.
  assert (q < M)%Z by nia. nia.
Qed.

(** The byte that selects the [i]-th child. *)
Lemma child_byte t i :
  aligned t → i < length (children t) →
  let c := z2b (b2z (base t) + Z.of_nat i) in
  b2z c = (b2z (base t) + Z.of_nat i)%Z
  ∧ out_of_range t c = false ∧ idx c (base t) = i.
Proof.
  intros Hal%aligned_bound Hi. cbn zeta. pose proof (b2z_range (base t)).
  assert (b2z (z2b (b2z (base t) + Z.of_nat i)) = b2z (base t) + Z.of_nat i)%Z as Hc
    by (apply b2z_small; lia).
  split_and!; [done | apply in_range_spec; lia |].
  rewrite idx_spec by lia. lia.
Qed.

Lemma byte_of_child t c :
  out_of_range t c = false →
  z2b (b2z (base t) + Z.of_nat (idx c (base t))) = c.
Proof.
  intros Hin%in_range_spec. rewrite idx_spec by lia.
  rewrite <- (z2b_b2z c) at 2. f_equal. lia.
Qed.

(** The pairs enumerated below a node are the keys on which [Get]
    answers, with its answers. *)
Lemma enum_elem t :
  wf t → ∀ path k v,
    (k, v) ∈ enum t path ↔ ∃ k', k = path ++ k' ∧ Get t k' = Some v.
Proof.
  induction t as [t IH] using Trie_nested_ind. intros Hwf path k v.
  destruct (wf_inv t Hwf) as [Hal Hcs].
  destruct t as [sfx val cs b]. cbn [children] in IH, Hcs.
  cbn [enum suffix value children base].
  destruct (is_empty_node _) eqn:He.
  { split; [by intros ?%elem_of_nil|].
    intros (k' & _ & Hget). by rewrite Get_empty_node in Hget. }
  rewrite elem_of_app, elem_of_enum_children. split.
  - intros [Hown | (i & c & Hi & Hin)].
    + destruct val as [v'|]; [|by apply elem_of_nil in Hown].
      apply list_elem_of_singleton in Hown. injection Hown as -> ->.
      exists sfx. split; [done|]. by rewrite Get_unfold, strip_self.
    + pose proof (lookup_lt_Some _ _ _ Hi) as Hlt.
      destruct (child_byte _ i Hal Hlt) as (_ & Hin' & Hidx).
      cbn [base children] in Hin', Hidx.
      set (ci := z2b (b2z b + Z.of_nat i)) in *.
      rewrite Forall_lookup in IH, Hcs.
      apply (IH i c Hi (Hcs i c Hi)) in Hin as (k'' & -> & Hget).
      exists (sfx ++ ci :: k''). split.
      * by rewrite <- !app_assoc.
      * rewrite (Get_below (mkTrie sfx val cs b) ci k''
                   : Get _ (sfx ++ ci :: k'') = _).
        unfold child_for. rewrite Hin'. cbn [children base].
        unfold child_at. by rewrite Hidx, Hi.
  - intros (k' & -> & Hget). rewrite Get_unfold in Hget. cbn [suffix value] in Hget.
    destruct (strip sfx k') as [[|c r]|] eqn:Hs; [| |done].
    + apply strip_spec in Hs. rewrite app_nil_r in Hs. subst k'.
      left. rewrite Hget. by apply list_elem_of_singleton.
    + apply strip_spec in Hs. subst k'. right.
      destruct (out_of_range (mkTrie sfx val cs b) c) eqn:Hin.
      { unfold child_for in Hget. by rewrite Hin, Get_zero in Hget. }
      pose proof (child_at_in_range _ c Hin) as Hi. cbn [children base] in Hi.
      exists (idx c b), (child_for (mkTrie sfx val cs b) c). split; [done|].
      rewrite (byte_of_child (mkTrie sfx val cs b) c Hin
               : z2b (b2z b + Z.of_nat (idx c b)) = c).
      rewrite Forall_lookup in IH, Hcs.
      apply (IH _ _ Hi (Hcs _ _ Hi)). exists r. split; [|done].
      by rewrite <- !app_assoc.
Qed.

Lemma enum_keys_extend t path k v :
  wf t → (k, v) ∈ enum t path → ∃ k', k = path ++ suffix t ++ k'.
Proof.
  intros Hwf (k' & -> & Hget)%enum_elem; [|done].
  rewrite Get_unfold in Hget.
  destruct (strip (suffix t) k') as [r|] eqn:Hs; [|done].
  apply strip_spec in Hs. subst k'. by exists r.
Qed.

Lemma enum_children_sorted p cs b :
  Forall (λ ch : Trie V,
            wf ch ∧ ∀ path, StronglySorted lex_lt (enum ch path).*1) cs →
  (b2z b + Z.of_nat (length cs) ≤ 256)%Z →
  StronglySorted lex_lt (enum_children enum p cs b).*1.
Proof.
  intros Hcs. revert b. induction Hcs as [|c cs [Hwf Hc] Hcs IH]; intros b Hb.
  { constructor. }
  cbn [enum_children]. rewrite fmap_app. cbn [length] in Hb.
  pose proof (b2z_range b). pose proof (b2z_range (byte_inc b)).
  apply StronglySorted_app_2; [|apply Hc|].
  - intros k1 k2 Hk1 Hk2.
    apply list_elem_of_fmap in Hk1 as ([k1' v1] & -> & Hk1).
    apply list_elem_of_fmap in Hk2 as ([k2' v2] & -> & Hk2).
    apply enum_keys_extend in Hk1 as (r1 & ->); [|done].
    apply elem_of_enum_children in Hk2 as (i & c' & Hi & Hk2).
    pose proof (lookup_lt_Some _ _ _ Hi) as Hlt.
    rewrite Forall_lookup in Hcs. destruct (Hcs i c' Hi) as [Hwf' _].
    apply enum_keys_extend in Hk2 as (r2 & ->); [|done].
    cbn [fst]. rewrite <- !app_assoc. cbn [app].
    apply lex_lt_branch. rewrite z2b_inc_add, b2z_small; lia.
  - apply IH. destruct cs; [cbn; lia|].
    unfold byte_inc. rewrite b2z_small; cbn [length] in *; lia.
Qed.

Lemma enum_sorted t :
  wf t → ∀ path, StronglySorted lex_lt (enum t path).*1.
Proof.
  induction t as [t IH] using Trie_nested_ind. intros Hwf path.
  destruct (wf_inv t Hwf) as [Hal Hcs].
  pose proof (aligned_bound t Hal) as Hbound.
  destruct t as [sfx val cs b]. cbn [children base] in IH, Hcs, Hbound.
  cbn [enum suffix value children base].
  destruct (is_empty_node _); [constructor|].
  rewrite fmap_app. apply StronglySorted_app_2.
  - intros k1 k2 Hk1 Hk2.
    destruct val as [v'|]; [|by apply elem_of_nil in Hk1].
    apply list_elem_of_singleton in Hk1. cbn in Hk1. subst k1.
    apply list_elem_of_fmap in Hk2 as ([k2' v2] & -> & Hk2).
    apply elem_of_enum_children in Hk2 as (i & c' & Hi & Hk2).
    rewrite Forall_lookup in Hcs.
    apply enum_keys_extend in Hk2 as (r2 & ->); [|by eapply Hcs].
    cbn [fst]. rewrite <- !app_assoc. rewrite app_assoc. cbn [app].
    apply lex_lt_extend.
  - destruct val; repeat constructor.
  - apply enum_children_sorted; [|done].
    rewrite Forall_forall in IH, Hcs. apply Forall_forall.
    intros c Hc. split; [by apply Hcs | by apply IH, Hcs].
Qed.

End EnumFacts.

(** ** Traversal below a prefix *)

Lemma starts_with_app (p r : bstring) : starts_with p (p ++ r) = true.
Proof. unfold starts_with. by rewrite strip_app_same. Qed.

Lemma starts_with_spec (p k : bstring) : starts_with p k = true ↔ p `prefix_of` k.
Proof.
  unfold starts_with. destruct (strip p k) as [r|] eqn:Hs.
  - apply strip_spec in Hs. split; [intros _; by exists r | done].
  - apply strip_None_prefix in Hs. split; [done | by intros ?].
Qed.

Lemma starts_with_shift (p a k : bstring) :
  starts_with (p ++ a) (p ++ k) = starts_with a k.
Proof.
  unfold starts_with. rewrite strip_app, strip_app_same. done.
Qed.

Lemma filter_all {A} (g : A → bool) (l : list A) :
  (∀ x, x ∈ l → g x = true) → List.filter g l = l.
Proof.
  induction l as [|x l IH]; [done|]. intros Hall. cbn.
  rewrite (Hall x) by apply list_elem_of_here.
  rewrite IH; [done|]. intros y Hy. apply Hall. by apply list_elem_of_further.
Qed.

Lemma filter_none {A} (g : A → bool) (l : list A) :
  (∀ x, x ∈ l → g x = false) → List.filter g l = [].
Proof.
  induction l as [|x l IH]; [done|]. intros Hall. cbn.
  rewrite (Hall x) by apply list_elem_of_here.
  apply IH. intros y Hy. apply Hall. by apply list_elem_of_further.
Qed.

Section PrefixFacts.
Context {V : Type}.
Implicit Types (t n : Trie V) (k key path p rest : bstring) (c b : byte).


(** Filtering what is enumerated below the children on a prefix that
    goes on with byte [c] leaves what is enumerated below the child of
    [c]. *)
Lemma filter_enum_children p (cs : list (Trie V)) b c rest :
  Forall wf cs → (b2z b + Z.of_nat (length cs) ≤ 256)%Z →
  List.filter (λ kv : KV V, starts_with (p ++ c :: rest) kv.1)
    (enum_children enum p cs b)
  = if out_of_window c b (Z.of_nat (length cs)) then []
    else List.filter (λ kv : KV V, starts_with (p ++ c :: rest) kv.1)
           (enum (child_at cs (idx c b)) (p ++ [c])).
Proof.
  intros Hcs. revert b. induction Hcs as [|ch cs Hch Hcs IH]; intros b Hb.
  { cbn [enum_children List.filter length].
    destruct (out_of_window c b (Z.of_nat 0)) eqn:Hw; [done|].
    apply window_spec in Hw. lia. }
  cbn [enum_children]. rewrite List.filter_app.
  pose proof (b2z_range b). pose proof (b2z_range c).
  pose proof (b2z_range (byte_inc b)). cbn [length] in Hb.
  assert (cs ≠ [] → b2z (byte_inc b) = b2z b + 1)%Z as Hinc.
  { intros Hne. unfold byte_inc. apply b2z_small.
    destruct cs; [done | cbn [length] in Hb; lia]. }
  assert (b2z (byte_inc b) + Z.of_nat (length cs) ≤ 256)%Z as Hb'.
  { destruct cs; [cbn [length]; lia|]. rewrite Hinc by done. lia. }
  rewrite (IH (byte_inc b) Hb').
  destruct (decide (c = b)) as [-> | Hne].
  - replace (out_of_window b b (Z.of_nat (length (ch :: cs)))) with false
      by (symmetry; apply window_spec; cbn [length]; lia).
    replace (out_of_window b (byte_inc b) (Z.of_nat (length cs))) with true.
    2:{ symmetry. destruct (out_of_window _ _ _) eqn:Hw; [done|].
        apply window_spec in Hw. destruct cs; [cbn [length] in Hw; lia|].
        rewrite Hinc in Hw by done. lia. }
    rewrite app_nil_r. rewrite idx_spec by lia.
    by replace (Z.to_nat (b2z b - b2z b)) with 0 by lia.
  - rewrite filter_none.
    2:{ intros [k v] Hin. apply enum_keys_extend in Hin as (r & ->); [|done].
        cbn [fst]. rewrite <- !app_assoc. rewrite starts_with_shift. cbn [app].
        unfold starts_with. cbn [strip]. rewrite byte_eqb_eq.
        by rewrite bool_decide_false. }
    cbn [app].
    destruct (out_of_window c b (Z.of_nat (length (ch :: cs)))) eqn:Hw.
    + destruct (out_of_window c (byte_inc b) _) eqn:Hw'; [done|].
      exfalso. apply window_spec in Hw'.
      assert (out_of_window c b (Z.of_nat (length (ch :: cs))) = false);
        [|congruence].
      apply window_spec. cbn [length].
      destruct cs; [cbn [length] in Hw'; lia|]. rewrite Hinc in Hw' by done. lia.
    + apply window_spec in Hw. cbn [length] in Hw.
      assert (b2z b < b2z c)%Z as Hlt.
      { assert (b2z b ≠ b2z c) by (intros ?%b2z_inj; done). lia. }
      assert (cs ≠ []) as Hcsne by (intros ->; cbn [length] in Hw; lia).
      replace (out_of_window c (byte_inc b) (Z.of_nat (length cs))) with false
        by (symmetry; apply window_spec; rewrite Hinc by done; lia).
      rewrite !idx_spec by (rewrite ?Hinc by done; lia). rewrite Hinc by done.
      replace (Z.to_nat (b2z c - b2z b)) with (S (Z.to_nat (b2z c - (b2z b + 1))))
        by lia.
      done.
Qed.

Lemma subtrie_rec_count fuel t k n s :
  length k < fuel → subtrie_rec fuel t k = Some (n, s) → s ≤ length k.
Proof.
  intros Hlen Hsub. destruct (subtrie_rec_ok fuel t k Hlen) as [Hloc _].
  rewrite Hsub in Hloc. destruct Hloc as (path & rest & -> & _ & _ & ->).
  unfold consumed. rewrite length_app. lia.
Qed.

(** The pairs whose keys start with the prefix are the pairs enumerated
    below the node that [subtrie] returns. *)
Lemma enum_subtrie fuel t p :
  length p < fuel → wf t →
  ∀ path,
    List.filter (λ kv : KV V, starts_with (path ++ p) kv.1) (enum t path)
    = match subtrie_rec fuel t p with
      | Some (n, s) => enum n (path ++ take (length p - s) p)
      | None => []
      end.
Proof.
  revert t p. induction fuel as [|fuel IH]; intros t p Hlen Hwf path; [lia|].
  assert (∀ q, q `prefix_of` suffix t →
            List.filter (λ kv : KV V, starts_with (path ++ q) kv.1) (enum t path)
            = enum t (path ++ take (length q - length q) q)) as Hwhole.
  { intros q [r Hq]. rewrite Nat.sub_diag, take_0, app_nil_r.
    apply filter_all. intros [k v] Hin.
    apply enum_keys_extend in Hin as (k' & ->); [|done].
    cbn [fst]. rewrite Hq, <- !app_assoc, app_assoc. apply starts_with_app. }
  cbn [subtrie_rec].
  destruct (strip (suffix t) p) as [[|c rest]|] eqn:Hs.
  - apply strip_spec in Hs. rewrite app_nil_r in Hs. subst p.
    rewrite (commonPrefix_strip _ _ _ (strip_self (suffix t))), Nat.eqb_refl.
    by apply Hwhole.
  - apply strip_spec in Hs. subst p. key_goes_on.
    rewrite length_app in Hlen. cbn [length] in Hlen.
    destruct (wf_inv t Hwf) as [Hal Hcs].
    destruct (is_empty_node t) eqn:He.
    { assert (enum t path = []) as -> by (destruct t; cbn in *; by rewrite He).
      unfold is_empty_node in He. destruct (children t) eqn:Hnil; [|done].
      rewrite out_of_range_nil by done. done. }
    assert (enum t path
            = match value t with Some v => [(path ++ suffix t, v)] | None => [] end
                ++ enum_children enum (path ++ suffix t) (children t) (base t)) as ->.
    { destruct t; cbn in *. by rewrite He. }
    rewrite List.filter_app, filter_none.
    2:{ intros [k v] Hin. destruct (value t); [|by apply elem_of_nil in Hin].
        apply list_elem_of_singleton in Hin. injection Hin as -> ->. cbn [fst].
        rewrite <- (app_nil_r (path ++ suffix t)), <- !app_assoc.
        rewrite !starts_with_shift. done. }
    cbn [app]. rewrite (app_assoc path).
    rewrite filter_enum_children by (by try apply aligned_bound).
    fold (out_of_range t c). destruct (out_of_range t c) eqn:Hin; [done|].
    rewrite !(child_at_reserved t c Hin).
    rewrite (cons_middle c (path ++ suffix t) rest), app_assoc.
    rewrite (IH (child_for t c) rest ltac:(lia) (wf_child_for t c Hwf)
               ((path ++ suffix t) ++ [c])).
    destruct (subtrie_rec fuel (child_for t c) rest) as [[n s]|] eqn:Hsub; [|done].
    pose proof (subtrie_rec_count fuel (child_for t c) rest n s ltac:(lia) Hsub)
      as Hle.
    f_equal. rewrite <- !app_assoc. do 2 f_equal. cbn [app].
    rewrite length_app. cbn [length].
    replace (length (suffix t) + S (length rest) - s)
      with (length (suffix t) + S (length rest - s)) by lia.
    rewrite take_app_add. done.
  - destruct (commonPrefix_diverge _ _ Hs) as (q & x & a' & r & Hsfx & -> & -> & Hr).
    destruct Hr as [-> | (y & b' & -> & Hxy)].
    + rewrite app_nil_r, Nat.eqb_refl. apply Hwhole.
      rewrite Hsfx. by apply prefix_app_r.
    + rewrite eqb_length_middle.
      replace (length q <? length (suffix t)) with true
        by (symmetry; apply Nat.ltb_lt; rewrite Hsfx, length_app; cbn; lia).
      apply filter_none. intros [k v] Hin.
      apply enum_keys_extend in Hin as (k' & ->); [|done].
      cbn [fst]. rewrite Hsfx, <- !app_assoc, !starts_with_shift. cbn [app].
      unfold starts_with. cbn [strip]. rewrite byte_eqb_eq.
      by rewrite bool_decide_false by congruence.
Qed.

End PrefixFacts.

(** ** The read operations never leave their bounds *)

Section ReadChecked.
Context {V : Type}.
Implicit Types (t : Trie V) (k key : bstring).

Lemma Get_rec_checked n t k :
  length k < n → Checked.Get_rec n t k = Some (Get_rec n t k).
Proof.
  revert t k. induction n as [|n IH]; intros t k Hlen; [lia|].
  cbn [Get_rec Checked.Get_rec].
  destruct (strip (suffix t) k) as [[|c rest]|] eqn:Hs.
  - apply strip_spec in Hs. rewrite app_nil_r in Hs. subst k.
    by destruct (tests_exact t) as [-> ->].
  - apply strip_spec in Hs. subst k. key_goes_on.
    rewrite length_app in Hlen. cbn [length] in Hlen.
    destruct (out_of_range t c) eqn:Hin; [done|].
    rewrite (child_at_in_range t c Hin), (child_at_reserved t c Hin).
    cbn [mbind option_bind]. apply IH. lia.
  - by rewrite tests_None.
Qed.

Lemma Get_checked t k : Checked.Get t k = Some (Get t k).
Proof. apply Get_rec_checked. lia. Qed.

Lemma findAllPfx_rec_checked n t key ofs :
  ofs ≤ length key → length key - ofs < n →
  Checked.findAllPfx_rec n t key ofs = Some (findAllPfx_rec n t key ofs).
Proof.
  revert t ofs. induction n as [|n IH]; intros t ofs Hofs Hlen; [lia|].
  cbn [findAllPfx_rec Checked.findAllPfx_rec]. unfold Checked.slice_from.
  rewrite (proj2 (Nat.leb_le _ _) Hofs). cbn [mbind option_bind].
  pose proof (commonPrefix_le_r (suffix t) (drop ofs key)) as Hs.
  rewrite length_drop in Hs.
  set (s := commonPrefix (suffix t) (drop ofs key)) in *.
  assert (Checked.slice_to key (ofs + s) = Some (take (ofs + s) key)) as Hfront.
  { unfold Checked.slice_to. by rewrite (proj2 (Nat.leb_le _ _)) by lia. }
  destruct (s <? length (suffix t)); [done|].
  destruct (Nat.eqb_spec (ofs + s) (length key)) as [Heq | Hne].
  { destruct (value t); [by rewrite Hfront | done]. }
  destruct (lookup_lt_is_Some_2 key s ltac:(lia)) as [c Hc].
  assert (byte_at key s = c) as -> by (unfold byte_at; by rewrite Hc).
  unfold Checked.index. rewrite Hc. cbn [mbind option_bind].
  destruct (out_of_range t c) eqn:Hin.
  { destruct (value t); [by rewrite Hfront | done]. }
  rewrite (child_at_in_range t c Hin).
  rewrite (child_at_reserved t c Hin). cbn [mbind option_bind].
  rewrite IH by lia. cbn [mbind option_bind].
  destruct (value t); [by rewrite Hfront | by rewrite app_nil_r].
Qed.

Lemma FindAllPfx_checked t key :
  Checked.FindAllPfx t key = Some (FindAllPfx t key).
Proof. apply findAllPfx_rec_checked; lia. Qed.

(** [ForEachPfx] makes the calls of the enumeration that start with the
    prefix, up to the first refusal. *)
Lemma ForEachPfx_enum (p : bstring) (f : bstring → V → bool) t :
  wf t →
  ForEachPfx p f t
  = stop_at f (List.filter (λ kv : KV V, starts_with p kv.1) (enum t []))
  ∧ Checked.ForEachPfx p f t = Some (ForEachPfx p f t).
Proof.
  intros Hwf. unfold ForEachPfx, Checked.ForEachPfx.
  destruct (subtrie_ok t p) as [_ ->]. cbn [mbind option_bind].
  pose proof (enum_subtrie (S (length p)) t p ltac:(lia) Hwf []) as Hfilter.
  cbn [app] in Hfilter. rewrite Hfilter. clear Hfilter.
  fold (subtrie t p).
  destruct (subtrie t p) as [[n s]|] eqn:Hsub; [|done].
  pose proof (subtrie_rec_count _ t p n s (Nat.lt_succ_diag_r _) Hsub) as Hle.
  rewrite (proj2 (Nat.leb_le _ _) Hle). unfold Checked.slice_to.
  rewrite (proj2 (Nat.leb_le _ _)) by lia. cbn [mbind option_bind app].
  destruct (forEach_enum f n (take (length p - s) p) []) as (buf' & Hrun & _ & ->).
  by rewrite Hrun.
Qed.

End ReadChecked.

(** ** Tries built by a sequence of Puts *)

Section Built.
Context {V : Type}.
Implicit Types (t : Trie V) (k key : bstring) (ops : list (bstring * option V)).

Lemma Put_wf t key v : wf t → wf (Put t key v).
Proof. intros Hwf. by apply (Put_rec_ok (S (length key)) v t key); [lia|]. Qed.

Lemma Get_Put t key v k :
  wf t → Get (Put t key v) k = if decide (k = key) then v else Get t k.
Proof. intros Hwf. by apply (Put_rec_ok (S (length key)) v t key); [lia|]. Qed.

Lemma Put_checked t key v : wf t → Checked.Put t key v = Some (Put t key v).
Proof. intros Hwf. by apply (Put_rec_ok (S (length key)) v t key); [lia|]. Qed.

Lemma build_snoc ops key v : build (ops ++ [(key, v)]) = Put (build ops) key v.
Proof. unfold build. by rewrite fold_left_app. Qed.

Lemma stored_snoc ops key v k :
  stored (ops ++ [(key, v)]) k = if decide (key = k) then v else stored ops k.
Proof. unfold stored. by rewrite fold_left_app. Qed.

Lemma wf_build ops : wf (build ops).
Proof.
  induction ops as [|[key v] ops IH] using rev_ind; [apply wf_zero|].
  rewrite build_snoc. by apply Put_wf.
Qed.

(** [Get] returns what the sequence of [Put]s has stored. *)
Lemma Get_build ops k : Get (build ops) k = stored ops k.
Proof.
  induction ops as [|[key v] ops IH] using rev_ind; [apply Get_zero|].
  rewrite build_snoc, stored_snoc, Get_Put by apply wf_build.
  rewrite IH. repeat case_decide; congruence.
Qed.

Lemma stored_None ops k : (∀ w, (k, Some w) ∉ ops) → stored ops k = None.
Proof.
  induction ops as [|[key v] ops IH] using rev_ind; [done|].
  intros Hno. rewrite stored_snoc. case_decide as Hk.
  - subst key. destruct v as [w|]; [|done].
    destruct (Hno w). apply elem_of_app. right. by apply list_elem_of_singleton.
  - apply IH. intros w Hin. apply (Hno w). apply elem_of_app. by left.
Qed.

Lemma wf_nodes t : wf t → ∀ n, n ∈ nodes t → aligned n.
Proof.
  induction t as [t IH] using Trie_nested_ind. intros [Hal Hcs]%wf_inv n.
  destruct t as [sfx val cs b]. cbn [nodes children] in *.
  intros [-> | Hin]%elem_of_cons; [done|].
  apply list_elem_of_In, in_concat in Hin as (l & Hl & Hn).
  apply in_map_iff in Hl as (c & <- & Hc).
  apply list_elem_of_In in Hc, Hn.
  rewrite Forall_forall in IH, Hcs. by apply (IH c Hc (Hcs c Hc)).
Qed.

End Built.

(** * The claims *)

(** C1.  [FindAllPfx] is documented to return all the prefixes of the key
    that are in the trie.  On the chain "a", "ab", "abc" and the query
    "abc" it returns only "ab" and "a": below the root the child is
    selected with [key[s]], a position counted from the start of the key,
    where [key[ofs+s]] is meant.  The stored key "abc" is missed although
    [Get] finds it. *)
Theorem FindAllPfx_misses_prefix :
  FindAllPfx (build ex_chain) (bs "abc") = [(bs "ab", 2); (bs "a", 1)]
  ∧ Get (build ex_chain) (bs "abc") = Some 3
  ∧ bs "abc" `prefix_of` bs "abc".
Proof. split_and!; [by vm_compute | by vm_compute | done]. Qed.

(** The same slip can also report a key that was never stored: with "x",
    "xy" and "xyx" stored, the query "xyz" is answered with "xyz" itself,
    carrying the value of "xyx". *)
Lemma FindAllPfx_reports_unstored_key :
  FindAllPfx (build [(bs "x", Some 1); (bs "xy", Some 2); (bs "xyx", Some 3)])
    (bs "xyz")
  = [(bs "xyz", 3); (bs "xy", 2); (bs "x", 1)].
Proof. by vm_compute. Qed.

(** The two queries of [TestFindAllPfx] do come out as the test expects. *)
Lemma FindAllPfx_test_vectors :
  FindAllPfx (build ex_all) (bs "aabbcc") = [(bs "aabb", 2); (bs "aa", 3)]
  ∧ FindAllPfx (build ex_all) (bs "aa") = [(bs "aa", 3)].
Proof. split; by vm_compute. Qed.

Section Claims.
Context {V : Type}.
Implicit Types (ops : list (bstring * option V)) (k key p : bstring).

(** C2.  Round trip: after [Put(k, v)] with a non-nil [v] on any trie
    built by [Put]s, [Get(k)] returns [v]. *)
Theorem put_get_round_trip ops k (v : V) :
  Get (Put (build ops) k (Some v)) k = Some v.
Proof.
  rewrite Get_Put by apply wf_build. by rewrite decide_True.
Qed.

(** C3.  [ForEach] with a callback that always continues calls it on
    keys in strictly increasing lexicographic byte order, on no key
    twice, and the pairs it passes are exactly the keys that have a
    stored non-nil value, each with that value. *)
Theorem ForEach_sorted_complete ops :
  let calls := ForEach go_on (build ops) in
  StronglySorted lex_lt calls.*1 ∧ NoDup calls.*1
  ∧ ∀ k (v : V), (k, v) ∈ calls ↔ stored ops k = Some v.
Proof.
  cbn zeta. destruct (ForEach_enum go_on (build ops)) as [-> _].
  rewrite stop_at_all.
  2:{ unfold all_continue. apply forallb_forall. done. }
  pose proof (enum_sorted (build ops) (wf_build ops) []) as Hsorted.
  split_and!; [done | |].
  - apply (StronglySorted_irrefl_NoDup lex_lt); [|done].
    intros x. unfold lex_lt. by rewrite lex_ltb_irrefl.
  - intros k v. rewrite enum_elem by apply wf_build.
    rewrite <- Get_build. split; [by intros (k' & -> & ?) | by exists k].
Qed.

Lemma longest_prefix_ext (g g' : bstring → option V) key res :
  (∀ q, g q = g' q) → longest_prefix g key res → longest_prefix g' key res.
Proof.
  intros Hext. unfold longest_prefix. destruct res.2.
  - intros (? & ? & Hmax). split_and!; [done | by rewrite <- Hext |].
    intros q ?. rewrite <- Hext. by apply Hmax.
  - intros [? Hnone]. split; [done|]. intros q ?. rewrite <- Hext. by apply Hnone.
Qed.


(** C6.  No accidental prefix retrieval: a strict prefix [p] of an
    inserted key that was never itself inserted with a non-nil value is
    not retrievable. *)
Theorem no_accidental_prefix ops k (v : V) p :
  (k, Some v) ∈ ops → p `prefix_of` k → p ≠ k →
  (∀ w, (p, Some w) ∉ ops) →
  Get (build ops) p = None.
Proof.
  intros _ _ _ Hnever. rewrite Get_build. by apply stored_None.
Qed.

(** C7.  On every trie built by [Put]s, every operation returns normally:
    with all index and slice expressions bounds-checked, and the loops
    and recursions bounded, each operation yields the result of the
    unchecked model. *)
Theorem operations_never_panic ops key (v : option V) p
    (f : bstring → V → bool) (show : V → bstring) :
  let t := build ops in
  Checked.Put t key v = Some (Put t key v)
  ∧ Checked.Get t key = Some (Get t key)
  ∧ Checked.FindPfx t key = Some (FindPfx t key)
  ∧ Checked.FindAllPfx t key = Some (FindAllPfx t key)
  ∧ Checked.ForEach f t = Some (ForEach f t)
  ∧ Checked.ForEachPfx p f t = Some (ForEachPfx p f t)
  ∧ Checked.String_ show t = Some (String_ show t).
Proof.
  cbn zeta. pose proof (wf_build ops) as Hwf. split_and!.
  - by apply Put_checked.
  - apply Get_checked.
  - apply FindPfx_ok.
  - apply FindAllPfx_checked.
  - apply ForEach_enum.
  - by apply ForEachPfx_enum.
  - unfold Checked.String_, String_.
    destruct (ForEach_enum go_on (build ops)) as [_ Hchk].
    unfold go_on in Hchk. by rewrite Hchk.
Qed.

(** C8.  In every trie built by [Put]s, every node with a non-empty child
    array has an array whose length is a power of two (at most 256) and a
    base that is a multiple of that length.  The tries reached by one
    more [Put] are among those quantified over, whatever byte the new
    key brings. *)
Theorem alignment_invariant ops (n : Trie V) :
  n ∈ nodes (build ops) → children n ≠ [] →
  ∃ j : Z, (0 ≤ j ≤ 8)%Z ∧ Z.of_nat (length (children n)) = (2 ^ j)%Z
           ∧ (b2z (base n) mod 2 ^ j = 0)%Z.
Proof.
  intros Hn Hne. apply aligned_window; [|done].
  by apply (wf_nodes (build ops) (wf_build ops)).
Qed.

(** C9, as amended.  [subtrie] returns the node reached by the prefix,
    whether the prefix ends where the node's suffix starts or inside that
    suffix, together with the number of leading characters of the node's
    suffix that the prefix has consumed, and the traversal of that node
    with [prefix[:len(prefix)-count]] in the buffer visits exactly the
    stored pairs whose keys start with the prefix.  It returns nil only
    when no stored key starts with the prefix; for such a prefix it
    returns nil or a node that holds no value. *)
Theorem subtrie_answers ops p :
  subtrie_answer ops p (subtrie (build ops) p).
Proof.
  pose proof (wf_build ops) as Hwf.
  destruct (subtrie_ok (build ops) p) as [Hloc _].
  pose proof (enum_subtrie (S (length p)) (build ops) p
                ltac:(lia) Hwf []) as Hfilter.
  cbn [app] in Hfilter. fold (subtrie (build ops) p) in Hfilter.
  assert (∀ k v,
            (k, v) ∈ List.filter (λ kv : KV V, starts_with p kv.1)
                       (enum (build ops) [])
            ↔ p `prefix_of` k ∧ stored ops k = Some v) as Hmem.
  { intros k v. rewrite list_elem_of_In, filter_In, <- list_elem_of_In.
    rewrite (enum_elem (build ops) Hwf [] k v). cbn [fst app].
    rewrite starts_with_spec, <- Get_build. split.
    - intros [(k' & -> & Hget) Hp]. done.
    - intros [Hp Hget]. split; [by exists k | done]. }
  unfold subtrie_answer.
  destruct (subtrie (build ops) p) as [[n s]|] eqn:Hsub.
  - split; [exact Hloc|]. intros k v. rewrite <- Hmem, Hfilter.
    destruct (forEach_enum go_on n (take (length p - s) p) [])
      as (buf' & -> & _ & _).
    cbn [snd app]. rewrite stop_at_all; [done|].
    unfold all_continue. apply forallb_forall. done.
  - intros (k & v & Hp & Hst).
    assert ((k, v) ∈ List.filter (λ kv : KV V, starts_with p kv.1)
                       (enum (build ops) [])) as Hin by by apply Hmem.
    rewrite Hfilter in Hin. by apply elem_of_nil in Hin.
Qed.

(** C10.  A [Put] on [k] changes the answer of [Get] on no other key. *)
Theorem put_preserves_other_keys ops k (v : option V) k' :
  k' ≠ k → Get (Put (build ops) k v) k' = Get (build ops) k'.
Proof.
  intros Hne. rewrite Get_Put by apply wf_build. by rewrite decide_False.
Qed.

End Claims.

(** C4.  [FindPfx] returns the longest stored key that is a prefix of the
    query, with its value, and the empty string with nil when there is
    none; the three queries of the specification come out as stated. *)
Theorem FindPfx_longest_prefix :
  (∀ (V : Type) (ops : list (bstring * option V)) (key : bstring),
     longest_prefix (stored ops) key (FindPfx (build ops) key))
  ∧ FindPfx (build ex_foo) (bs "fooaaaabcd") = (bs "fooaaaa", Some 1)
  ∧ FindPfx (build ex_foo) (bs "foocd") = ([], None)
  ∧ FindPfx (build ex_foo) (bs "g") = ([], None).
Proof.
  split; [|split_and!; vm_compute; reflexivity].
  intros V ops key. apply (longest_prefix_ext (Get (build ops))).
  - apply Get_build.
  - apply FindPfx_ok.
Qed.



Lemma no_accidental_prefix_witness :
  (bs "abcde", Some 1) ∈ ex_single ∧ bs "ab" `prefix_of` bs "abcde"
  ∧ bs "ab" ≠ bs "abcde" ∧ (∀ w : nat, (bs "ab", Some w) ∉ ex_single)
  ∧ Get (build ex_single) (bs "ab") = None.
Proof.
  assert ((bs "abcde", Some 1) ∈ ex_single) as H1 by apply list_elem_of_here.
  assert (bs "ab" `prefix_of` bs "abcde") as H2 by (exists (bs "cde"); reflexivity).
  assert (bs "ab" ≠ bs "abcde") as H3 by discriminate.
  assert (∀ w : nat, (bs "ab", Some w) ∉ ex_single) as H4.
  { intros w Hin. apply list_elem_of_singleton in Hin. discriminate Hin. }
  split_and!; try assumption.
  exact (no_accidental_prefix ex_single (bs "abcde") 1 (bs "ab") H1 H2 H3 H4).
Defined.

Lemma alignment_invariant_witness :
  build ex_foo ∈ nodes (build ex_foo) ∧ children (build ex_foo) ≠ []
  ∧ ∃ j : Z, (0 ≤ j ≤ 8)%Z
             ∧ Z.of_nat (length (children (build ex_foo))) = (2 ^ j)%Z
             ∧ (b2z (base (build ex_foo)) mod 2 ^ j = 0)%Z.
Proof.
  assert (build ex_foo ∈ nodes (build ex_foo)) as H1.
  { vm_compute. apply list_elem_of_here. }
  assert (children (build ex_foo) ≠ []) as H2 by (vm_compute; discriminate).
  split_and!; try assumption.
  exact (alignment_invariant ex_foo (build ex_foo) H1 H2).
Defined.

(** C9, as stated, fails twice.  On the single key "abcde" and the
    prefix "ab" the node is the root and the integer is 2, the number of
    consumed characters, while three characters of the suffix remain.  On
    the keys "aaaa", "aabb", "aa" and the prefix "aac", with which no
    stored key starts, the answer is not nil but a slot of the root's
    child array that was never filled; this contradicts the claim also
    when the integer is read as the number of consumed characters. *)
Lemma subtrie_claim_counterexample :
  ¬ subtrie_claim unconsumed ex_single (bs "ab")
      (subtrie (build ex_single) (bs "ab"))
  ∧ ¬ subtrie_claim unconsumed ex_all (bs "aac")
        (subtrie (build ex_all) (bs "aac"))
  ∧ ¬ subtrie_claim consumed ex_all (bs "aac")
        (subtrie (build ex_all) (bs "aac")).
Proof.
  assert (¬ valid_path ex_all (bs "aac")) as Hnone.
  { intros (k & v & [r ->] & Hst). unfold stored, ex_all in Hst.
    cbn [fold_left fst snd] in Hst.
    repeat (case_decide as H; [cbn in H; discriminate H|]).
    discriminate Hst. }
  assert (subtrie (build ex_all) (bs "aac") = Some (zero, 0)) as ->
    by (by vm_compute).
  split_and!.
  - assert (subtrie (build ex_single) (bs "ab") = Some (build ex_single, 2))
      as -> by (by vm_compute).
    intros [(path & rest & Hkey & Hreach & Hpre & Hs) _].
    apply reach_inv in Hreach as [[-> _] | (c & path' & _ & Hin & _)].
    + cbn [app] in Hkey. subst rest. vm_compute in Hs. discriminate Hs.
    + rewrite out_of_range_nil in Hin; [discriminate | by vm_compute].
  - intros [_ Hnil]. by specialize (Hnil Hnone).
  - intros [_ Hnil]. by specialize (Hnil Hnone).
Qed.

Lemma put_preserves_other_keys_witness :
  bs "aa" ≠ bs "ab"
  ∧ Get (Put (build ex_all) (bs "ab") (Some 7)) (bs "aa") = Get (build ex_all) (bs "aa").
Proof.
  assert (bs "aa" ≠ bs "ab") as H1 by discriminate.
  split; [assumption|].
  exact (put_preserves_other_keys ex_all (bs "ab") (Some 7) (bs "aa") H1).
Defined.

(** The boundary case named with C8: a one-slot array with base 'a' and a
    new key byte of ['a' - 1] grows to two slots with base ['a' - 1]. *)
Example grow_below_base :
  let t := build [(bs "a", Some 1); (bs "`", Some 2)] in
  length (children t) = 2 ∧ base t = "`"%char
  ∧ Get t (bs "a") = Some 1 ∧ Get t (bs "`") = Some 2.
Proof. by vm_compute. Qed.

(** * Further properties *)

(** ** commonPrefix *)

Lemma commonPrefix_take (a b : bstring) :
  take (commonPrefix a b) a = take (commonPrefix a b) b.
Proof.
  revert b. induction a as [|x a IH]; intros [|y b]; cbn; try done.
  rewrite byte_eqb_eq. case_bool_decide; [|done]. subst y. cbn. by rewrite IH.
Qed.

Lemma commonPrefix_maximal (a b : bstring) (j : nat) :
  j ≤ length a → j ≤ length b → take j a = take j b → j ≤ commonPrefix a b.
Proof.
  revert b j. induction a as [|x a IH]; intros [|y b] [|j]; cbn; try lia.
  intros Ha Hb Heq. injection Heq as -> Heq.
  rewrite Ascii.eqb_refl. apply le_n_S, IH; [lia | lia | done].
Qed.

(** X1.  [commonPrefix(a, b)] is the largest [i] such that
    [a[:i] == b[:i]]: the two strings agree on their first [i] bytes, [i]
    exceeds neither length, and they agree on no longer prefix. *)
Theorem commonPrefix_largest (a b : bstring) :
  let i := commonPrefix a b in
  i ≤ length a ∧ i ≤ length b ∧ take i a = take i b
  ∧ ∀ j, j ≤ length a → j ≤ length b → take j a = take j b → j ≤ i.
Proof.
  cbn zeta. split_and!.
  - apply commonPrefix_le_l.
  - apply commonPrefix_le_r.
  - apply commonPrefix_take.
  - apply commonPrefix_maximal.
Qed.

(** ** What a sequence of Puts leaves in the trie *)

Section Stored.
Context {V : Type}.
Implicit Types (ops : list (bstring * option V)) (k key : bstring).

Lemma stored_elem ops k (v : V) : stored ops k = Some v → (k, Some v) ∈ ops.
Proof.
  induction ops as [|[key o] ops IH] using rev_ind; [done|].
  rewrite stored_snoc. cbn [fst snd]. case_decide as Hk.
  - intros ->. subst key. apply elem_of_app. right. by apply list_elem_of_singleton.
  - intros Hs. apply elem_of_app. left. by apply IH.
Qed.

Lemma stored_not_put ops k : k ∉ ops.*1 → stored ops k = None.
Proof.
  intros Hk. apply stored_None. intros w Hin. apply Hk.
  apply list_elem_of_fmap. by exists (k, Some w).
Qed.

Lemma stored_NoDup ops k (o : option V) :
  NoDup ops.*1 → (k, o) ∈ ops → stored ops k = o.
Proof.
  induction ops as [|[key o'] ops IH] using rev_ind; [by intros _ ?%elem_of_nil|].
  rewrite fmap_app. cbn [fmap list_fmap fst]. intros Hnd Hin.
  apply NoDup_app in Hnd as (Hnd & Hdis & _).
  rewrite stored_snoc. cbn [fst snd].
  apply elem_of_app in Hin as [Hin | Hin].
  - rewrite decide_False; [by apply IH|].
    intros ->. apply (Hdis k); [|by apply list_elem_of_singleton].
    apply list_elem_of_fmap. by exists (k, o).
  - apply list_elem_of_singleton in Hin. injection Hin as -> ->.
    by rewrite decide_True.
Qed.

Lemma stored_Permutation ops ops' k :
  NoDup ops.*1 → ops ≡ₚ ops' → stored ops k = stored ops' k.
Proof.
  intros Hnd Hperm.
  assert (NoDup ops'.*1) as Hnd' by (by rewrite <- Hperm).
  destruct (decide (k ∈ ops.*1)) as [Hin | Hout].
  - apply list_elem_of_fmap in Hin as ([k' o] & -> & Hin). cbn [fst].
    rewrite (stored_NoDup ops k' o Hnd Hin).
    symmetry. apply stored_NoDup; [done|]. by rewrite <- Hperm.
  - rewrite (stored_not_put ops k Hout). symmetry. apply stored_not_put.
    by rewrite <- Hperm.
Qed.

End Stored.

(** ** Two tries that answer alike are enumerated alike *)

Lemma lex_ltb_asym (a b : bstring) : lex_ltb a b = true → lex_ltb b a = false.
Proof.
  revert b. induction a as [|x a IH]; intros [|y b]; cbn; try done.
  destruct (Z.ltb_spec (b2z x) (b2z y)) as [Hxy | Hxy].
  - intros _. destruct (Z.ltb_spec (b2z y) (b2z x)); [lia | done].
  - destruct (Z.ltb_spec (b2z y) (b2z x)); [done|]. apply IH.
Qed.

Lemma sorted_same_elements {A} (R : relation A) (l1 l2 : list A) :
  (∀ x y, R x y → ¬ R y x) →
  StronglySorted R l1 → StronglySorted R l2 →
  (∀ x, x ∈ l1 ↔ x ∈ l2) → l1 = l2.
Proof.
  intros Hasym Hs1. revert l2.
  induction Hs1 as [|x l1 Hs1 IH Hx]; intros l2 Hs2 Hsame.
  - destruct l2 as [|y l2]; [done|].
    pose proof (proj2 (Hsame y) (list_elem_of_here _ _)) as Hy.
    by apply elem_of_nil in Hy.
  - destruct Hs2 as [|y l2 Hs2 Hy].
    { pose proof (proj1 (Hsame x) (list_elem_of_here _ _)) as Hx'.
      by apply elem_of_nil in Hx'. }
    rewrite Forall_forall in Hx, Hy.
    assert (x = y) as ->.
    { pose proof (proj1 (Hsame x) (list_elem_of_here _ _)) as Hx2.
      pose proof (proj2 (Hsame y) (list_elem_of_here _ _)) as Hy1.
      apply elem_of_cons in Hx2 as [-> | Hx2]; [done|].
      apply elem_of_cons in Hy1 as [-> | Hy1]; [done|].
      destruct (Hasym x y); [by apply Hx | by apply Hy]. }
    f_equal. apply IH; [done|]. intros z. split; intros Hz.
    + pose proof (proj1 (Hsame z) (list_elem_of_further _ _ _ Hz)) as Hz2.
      apply elem_of_cons in Hz2 as [-> | Hz2]; [|done].
      destruct (Hasym y y); by apply Hx.
    + pose proof (proj2 (Hsame z) (list_elem_of_further _ _ _ Hz)) as Hz1.
      apply elem_of_cons in Hz1 as [-> | Hz1]; [|done].
      destruct (Hasym y y); by apply Hy.
Qed.

Lemma sorted_by_key {V} (l : list (KV V)) :
  StronglySorted lex_lt l.*1 → StronglySorted (λ p q : KV V, lex_lt p.1 q.1) l.
Proof.
  induction l as [|p l IH]; cbn; [constructor|].
  intros Hs. apply StronglySorted_inv in Hs as [Hs Hp]. constructor; [by apply IH|].
  rewrite Forall_fmap in Hp. done.
Qed.

Section Observation.
Context {V : Type}.
Implicit Types (t : Trie V) (k key p : bstring).

Lemma enum_ext t t' :
  wf t → wf t' → (∀ k, Get t k = Get t' k) → enum t [] = enum t' [].
Proof.
  intros Hwf Hwf' Hget.
  apply (sorted_same_elements (λ p q : KV V, lex_lt p.1 q.1)).
  - intros p q Hpq Hqp. unfold lex_lt in *. apply lex_ltb_asym in Hpq. congruence.
  - by apply sorted_by_key, enum_sorted.
  - by apply sorted_by_key, enum_sorted.
  - intros [k v]. rewrite !enum_elem by done. cbn [app].
    split; intros (k' & -> & Hk'); exists k'; by rewrite ?Hget in *.
Qed.

Lemma ForEach_go_on t : ForEach go_on t = enum t [].
Proof.
  destruct (ForEach_enum go_on t) as [-> _]. apply stop_at_all.
  unfold all_continue. by apply forallb_forall.
Qed.

Lemma ForEach_ext t t' :
  wf t → wf t' → (∀ k, Get t k = Get t' k) → ForEach go_on t = ForEach go_on t'.
Proof. intros. rewrite !ForEach_go_on. by apply enum_ext. Qed.

Lemma ForEach_elem (ops : list (bstring * option V)) k (v : V) :
  (k, v) ∈ ForEach go_on (build ops) ↔ stored ops k = Some v.
Proof.
  rewrite ForEach_go_on, enum_elem by apply wf_build. rewrite <- Get_build.
  split; [by intros (k' & -> & ?) | by exists k].
Qed.

End Observation.

(** ** Properties of tries built by Puts *)

Section MoreClaims.
Context {V : Type}.
Implicit Types (ops : list (bstring * option V)) (k key p : bstring)
  (f : bstring → V → bool).

(** X2.  After any sequence of [Put]s, [Get] returns the value of the last
    [Put] on the key, nil included, and nil when the key was never put. *)
Theorem Get_returns_last_Put ops k : Get (build ops) k = stored ops k.
Proof. apply Get_build. Qed.

(** X3.  To remove a value insert nil: after [Put(k, nil)], [Get(k)] is nil
    and [ForEach] no longer passes [k] to the callback. *)
Theorem Put_nil_removes ops k :
  let t := Put (build ops) k None in
  Get t k = None ∧ k ∉ (ForEach go_on t).*1.
Proof.
  cbn zeta. rewrite <- build_snoc. split.
  - by rewrite Get_build, stored_snoc, decide_True.
  - intros ([k' v] & -> & Hin)%list_elem_of_fmap. cbn [fst] in Hin.
    apply ForEach_elem in Hin. by rewrite stored_snoc, decide_True in Hin.
Qed.

(** X4.  Overwriting a key replaces its value and adds no key: after
    [Put(k, v1)] and [Put(k, v2)], [Get(k)] is [v2] and [ForEach] passes
    the same keys as after the first [Put] alone. *)
Theorem Put_overwrite ops k (v1 v2 : V) :
  let t1 := Put (build ops) k (Some v1) in
  let t2 := Put t1 k (Some v2) in
  Get t2 k = Some v2 ∧ (ForEach go_on t2).*1 = (ForEach go_on t1).*1.
Proof.
  cbn zeta. rewrite <- !build_snoc. split.
  - by rewrite Get_build, stored_snoc, decide_True.
  - apply (sorted_same_elements lex_lt).
    + intros a b Hab Hba. unfold lex_lt in *. apply lex_ltb_asym in Hab. congruence.
    + rewrite ForEach_go_on. apply enum_sorted, wf_build.
    + rewrite ForEach_go_on. apply enum_sorted, wf_build.
    + intros k'. rewrite !list_elem_of_fmap. split.
      * intros ([k'' v] & -> & Hin). apply ForEach_elem in Hin. cbn [fst].
        rewrite stored_snoc in Hin. cbn [fst snd] in Hin. case_decide as Hk.
        -- exists (k'', v1). split; [done|]. apply ForEach_elem.
           by rewrite stored_snoc, decide_True.
        -- exists (k'', v). split; [done|]. by apply ForEach_elem.
      * intros ([k'' v] & -> & Hin). apply ForEach_elem in Hin. cbn [fst].
        destruct (decide (k = k'')) as [<- | Hk].
        -- exists (k, v2). split; [done|]. apply ForEach_elem.
           by rewrite stored_snoc, decide_True.
        -- exists (k'', v). split; [done|]. apply ForEach_elem.
           rewrite stored_snoc. cbn [fst snd]. by rewrite decide_False.
Qed.

(** X5.  The order of insertion does not matter for distinct keys: two
    sequences of [Put]s that are permutations of each other, with no key
    put twice, give tries on which [Get] and [ForEach] agree. *)
Theorem insertion_order_irrelevant ops ops' :
  NoDup ops.*1 → ops ≡ₚ ops' →
  (∀ k, Get (build ops) k = Get (build ops') k)
  ∧ ForEach go_on (build ops) = ForEach go_on (build ops').
Proof.
  intros Hnd Hperm.
  assert (∀ k, Get (build ops) k = Get (build ops') k) as Hget.
  { intros k. rewrite !Get_build. by apply stored_Permutation. }
  split; [done|]. apply ForEach_ext; [apply wf_build | apply wf_build | done].
Qed.

(** X6.  A trie holds no more keys than were put: the number of pairs that
    [ForEach] passes is at most the number of [Put]s. *)
Theorem ForEach_at_most_Puts ops :
  length (ForEach go_on (build ops)) ≤ length ops.
Proof.
  pose proof (enum_sorted (build ops) (wf_build ops) []) as Hs.
  rewrite <- ForEach_go_on in Hs.
  apply (StronglySorted_irrefl_NoDup lex_lt) in Hs.
  2:{ intros x. unfold lex_lt. by rewrite lex_ltb_irrefl. }
  assert (length (ForEach go_on (build ops)).*1 ≤ length ops.*1) as Hle;
    [|by rewrite !length_fmap in Hle].
  apply submseteq_length, NoDup_submseteq; [done|].
  intros k ([k' v] & -> & Hin)%list_elem_of_fmap. cbn [fst].
  apply ForEach_elem, stored_elem in Hin.
  apply list_elem_of_fmap. by exists (k', Some v).
Qed.

(** X7.  The window of a child array never runs past the last byte: in
    every node of a trie built by [Put]s, [base + len(children)] is at
    most 256, so the byte of the last slot exists and the increments of
    the selecting byte in [forEach] do not wrap inside the array. *)
Theorem window_within_bytes ops (n : Trie V) :
  n ∈ nodes (build ops) →
  (b2z (base n) + Z.of_nat (length (children n)) ≤ 256)%Z.
Proof.
  intros Hn. apply aligned_bound.
  by apply (wf_nodes (build ops) (wf_build ops)).
Qed.

End MoreClaims.

(** ** Properties of the operations on any trie *)

Section AnyTrie.
Context {V : Type}.
Implicit Types (t : Trie V) (k key p : bstring) (f : bstring → V → bool).

(** X8.  If [f] returns false the iteration stops: [ForEach(f)] makes the
    calls of the full traversal up to and including the first one on which
    [f] returns false, and none after it. *)
Theorem ForEach_stops_at_refusal f t :
  ForEach f t = stop_at f (ForEach go_on t).
Proof. rewrite ForEach_go_on. apply ForEach_enum. Qed.

Lemma commonPrefix_nil_r (a : bstring) : commonPrefix a [] = 0.
Proof. by destruct a. Qed.

(** X9.  The empty prefix selects the whole trie: [ForEachPfx("", f)] makes
    the same calls as [ForEach(f)]. *)
Theorem ForEachPfx_empty_prefix f t : ForEachPfx [] f t = ForEach f t.
Proof.
  unfold ForEachPfx, subtrie. cbn [subtrie_rec length].
  by rewrite commonPrefix_nil_r.
Qed.

(** X10.  A key that [Get] finds is its own longest prefix: when [Get(k)]
    returns a non-nil [v], [FindPfx(k)] returns [(k, v)]. *)
Theorem FindPfx_of_stored_key t k (v : V) :
  Get t k = Some v → FindPfx t k = (k, Some v).
Proof.
  intros Hget. destruct (FindPfx_ok t k) as [Hspec _].
  unfold longest_prefix in Hspec.
  destruct (FindPfx t k) as [p [w|]]; cbn [fst snd] in Hspec.
  - destruct Hspec as (Hp & Hw & Hmax).
    assert (p = k) as ->.
    { apply prefix_length_eq; [done|]. apply Hmax; [done | congruence]. }
    congruence.
  - destruct Hspec as [_ Hnone]. rewrite Hnone in Hget; done.
Qed.

End AnyTrie.

(** ** FindAllPfx *)

Section FindAllPfxFacts.
Context {V : Type}.
Implicit Types (t : Trie V) (key : bstring).

Lemma findAllPfx_rec_shape n t key ofs :
  ofs ≤ length key →
  let r := findAllPfx_rec n t key ofs in
  Forall (λ kv : KV V, ∃ m, ofs ≤ m ≤ length key ∧ kv.1 = take m key) r
  ∧ StronglySorted (λ a b : bstring, length b < length a) r.*1.
Proof.
  revert t ofs. induction n as [|n IH]; intros t ofs Hofs; cbn zeta.
  { cbn. split; constructor. }
  cbn [findAllPfx_rec].
  pose proof (commonPrefix_le_r (suffix t) (drop ofs key)) as Hs.
  rewrite length_drop in Hs.
  set (s := commonPrefix (suffix t) (drop ofs key)) in *.
  set (own := match value t with
              | Some v => [(take (ofs + s) key, v)]
              | None => []
              end).
  assert (Forall (λ kv : KV V, ∃ m, ofs ≤ m ≤ length key ∧ kv.1 = take m key) own
          ∧ StronglySorted (λ a b : bstring, length b < length a) own.*1
          ∧ ∀ k, k ∈ own.*1 → length k = ofs + s) as (Hown1 & Hown2 & Hown3).
  { unfold own. destruct (value t) as [v|]; cbn.
    - split_and!.
      + repeat constructor. exists (ofs + s). split; [lia | done].
      + repeat constructor.
      + intros k ->%list_elem_of_singleton. rewrite length_take. lia.
    - split_and!; [constructor | constructor |]. by intros k ?%elem_of_nil. }
  destruct (s <? length (suffix t)); [cbn; split; constructor|].
  destruct (Nat.eqb_spec (ofs + s) (length key)) as [Heq | Hne]; [done|].
  destruct (out_of_range t (byte_at key s)); [done|].
  destruct (IH (child_at (children t) (idx (byte_at key s) (base t)))
              (ofs + s + 1) ltac:(lia)) as [Hdeep1 Hdeep2].
  split.
  - apply Forall_app. split; [|done].
    eapply Forall_impl; [exact Hdeep1|].
    intros kv (m & Hm & ->). exists m. split; [lia | done].
  - rewrite fmap_app. apply StronglySorted_app_2; [|done|done].
    intros k1 k2 Hk1 Hk2. rewrite (Hown3 k2 Hk2).
    apply list_elem_of_fmap in Hk1 as (kv & -> & Hkv).
    rewrite Forall_forall in Hdeep1.
    destruct (Hdeep1 kv Hkv) as (m & Hm & ->). rewrite length_take. lia.
Qed.

(** X11.  Whatever the trie, [FindAllPfx(key)] returns prefixes of [key]
    only, in order of strictly decreasing length (longest first). *)
Theorem FindAllPfx_prefixes_longest_first t key :
  Forall (λ kv : KV V, kv.1 `prefix_of` key) (FindAllPfx t key)
  ∧ StronglySorted (λ a b : bstring, length b < length a) (FindAllPfx t key).*1.
Proof.
  destruct (findAllPfx_rec_shape (S (length key - 0)) t key 0 ltac:(lia))
    as [Hall Hsorted].
  split; [|done].
  eapply Forall_impl; [exact Hall|]. intros kv (m & _ & ->). apply prefix_take.
Qed.

End FindAllPfxFacts.

(** ** ForEachPfx on its own *)

Section ForEachPfxFacts.
Context {V : Type}.
Implicit Types (ops : list (bstring * option V)) (k key p : bstring)
  (f : bstring → V → bool).

Lemma ForEachPfx_go_on ops p :
  ForEachPfx p go_on (build ops)
  = List.filter (λ kv : KV V, starts_with p kv.1) (ForEach go_on (build ops)).
Proof.
  rewrite ForEach_go_on.
  destruct (ForEachPfx_enum p go_on (build ops) (wf_build ops)) as [-> _].
  apply stop_at_all. unfold all_continue. by apply forallb_forall.
Qed.

(** X12.  [ForEachPfx(p, f)] stops like [ForEach]: it makes the calls of
    the full traversal whose keys start with [p], up to and including the
    first of them on which [f] returns false. *)
Theorem ForEachPfx_stops_at_refusal ops p f :
  ForEachPfx p f (build ops)
  = stop_at f (List.filter (λ kv : KV V, starts_with p kv.1)
                 (ForEach go_on (build ops))).
Proof.
  rewrite ForEach_go_on. by apply ForEachPfx_enum, wf_build.
Qed.

Lemma sorted_filter {A} (R : relation A) (g : A → bool) (l : list A) :
  StronglySorted R l → StronglySorted R (List.filter g l).
Proof.
  induction 1 as [|x l Hl IH Hx]; cbn; [constructor|].
  destruct (g x); [|done]. constructor; [done|].
  rewrite Forall_forall in *. intros y Hy%list_elem_of_In%filter_In.
  apply Hx, list_elem_of_In, Hy.
Qed.

(** X13.  With a callback that always continues, [ForEachPfx(p)] passes
    exactly the stored keys that start with [p], each with its value, in
    strictly increasing order; it makes no call when no stored key starts
    with [p]. *)
Theorem ForEachPfx_sorted_complete ops p :
  let calls := ForEachPfx p go_on (build ops) in
  StronglySorted (λ a b : KV V, lex_lt a.1 b.1) calls
  ∧ ∀ k (v : V), (k, v) ∈ calls ↔ p `prefix_of` k ∧ stored ops k = Some v.
Proof.
  cbn zeta. rewrite ForEachPfx_go_on. split.
  - apply sorted_filter, sorted_by_key. rewrite ForEach_go_on.
    apply enum_sorted, wf_build.
  - intros k v. rewrite list_elem_of_In, filter_In, <- list_elem_of_In.
    rewrite ForEach_elem. cbn [fst]. rewrite starts_with_spec. tauto.
Qed.

End ForEachPfxFacts.

(** ** shape *)

Lemma int_wrap_small (w z : Z) :
  (- 2 ^ (w - 1) ≤ z < 2 ^ (w - 1))%Z → int_wrap w z = z.
Proof.
  intros Hz. unfold int_wrap.
  assert (1 ≤ w)%Z as Hw.
  { destruct (Z.le_gt_cases 1 w) as [|Hlt]; [done|].
    rewrite Z.pow_neg_r in Hz by lia. lia. }
  replace w with (1 + (w - 1))%Z at 2 by lia.
  rewrite Z.pow_add_r by lia. change (2 ^ 1)%Z with 2%Z.
  rewrite Z.mod_small by lia. lia.
Qed.

Section ShapeFacts.
Context {V : Type}.
Implicit Types (t : Trie V) (cs : list (Trie V)).

Lemma shape_children_counts w cs :
  Forall (shape_counts w) cs →
  ∀ (acc : Z * Z) (p : bstring) (b : byte),
    (0 ≤ acc.1 ≤ acc.2)%Z →
    (acc.2 + Z.of_nat (length (concat (map nodes cs))) < 2 ^ (w - 1))%Z →
    shape_children (shape w) w cs acc
    = ((acc.1 + Z.of_nat (length (enum_children enum p cs b)))%Z,
       (acc.2 + Z.of_nat (length (concat (map nodes cs))))%Z)
    ∧ length (enum_children enum p cs b) ≤ length (concat (map nodes cs)).
Proof.
  induction 1 as [|c cs Hc Hcs IH]; intros [ln sz] p b Hacc Hbound;
    cbn [fst snd] in *.
  { cbn. split; [f_equal; lia | lia]. }
  cbn [shape_children enum_children map concat] in *.
  rewrite !length_app in *.
  destruct (Hc ltac:(lia) (p ++ [b])) as [-> Hle].
  cbn [fst snd].
  rewrite !int_wrap_small by lia.
  destruct (IH (ln + Z.of_nat (length (enum c (p ++ [b]))),
                sz + Z.of_nat (length (nodes c)))%Z p (byte_inc b))
    as [-> Hle']; cbn [fst snd]; [lia | lia |].
  split; [f_equal; lia | lia].
Qed.

Lemma shape_counts_all w t : shape_counts w t.
Proof.
  induction t as [t IH] using Trie_nested_ind. intros Hbound path.
  destruct t as [sfx val cs b]. cbn [children] in IH.
  cbn [shape nodes enum suffix value children base length] in *.
  assert (1 < 2 ^ (w - 1))%Z as Hone by lia.
  change (0 + 1)%Z with 1%Z. rewrite !int_wrap_small by lia.
  set (own := match val with Some v => [(path ++ sfx, v)] | None => [] end).
  assert (match val with Some _ => 1%Z | None => 0%Z end
          = Z.of_nat (length own) ∧ length own ≤ 1) as [-> Hown]
    by (unfold own; destruct val; cbn [length]; split; lia).
  destruct (shape_children_counts w cs IH (Z.of_nat (length own), 1%Z)
              (path ++ sfx) b) as [-> Hle]; cbn [fst snd]; [lia | lia |].
  destruct (is_empty_node _) eqn:He.
  - unfold is_empty_node in He. cbn [children value] in He.
    destruct cs; [|done]. destruct val; [done|]. cbn. done.
  - rewrite length_app. unfold KV in *. split; [f_equal; lia | lia].
Qed.

(** X14.  [shape] returns the number of stored values, which is the number
    of pairs that [ForEach] passes, and the number of nodes; the counts are
    exact as long as the number of nodes fits an [int] of [w] bits. *)
Theorem shape_counts_values_and_nodes (w : Z) t :
  (Z.of_nat (length (nodes t)) < 2 ^ (w - 1))%Z →
  shape w t = (Z.of_nat (length (ForEach go_on t)), Z.of_nat (length (nodes t))).
Proof.
  intros Hbound. rewrite ForEach_go_on. by apply shape_counts_all.
Qed.

End ShapeFacts.

Lemma shape_counts_values_and_nodes_witness :
  (Z.of_nat (length (nodes (build ex_all))) < 2 ^ (64 - 1))%Z
  ∧ shape 64 (build ex_all)
    = (Z.of_nat (length (ForEach go_on (build ex_all))),
       Z.of_nat (length (nodes (build ex_all)))).
Proof.
  assert (Z.of_nat (length (nodes (build ex_all))) < 2 ^ (64 - 1))%Z as H
    by (vm_compute; reflexivity).
  split; [assumption|].
  exact (shape_counts_values_and_nodes 64 (build ex_all) H).
Defined.

(** ** dump *)

Lemma indent_ok (w L : Z) :
  (32 ≤ w)%Z → (0 ≤ L ≤ 80)%Z →
  is_Some (indent (int_wrap w (4 * L))) ↔ (L ≤ 20)%Z.
Proof.
  intros Hw HL.
  assert (2 ^ 31 ≤ 2 ^ (w - 1))%Z as Hpow by (apply Z.pow_le_mono_r; lia).
  change (2 ^ 31)%Z with 2147483648%Z in Hpow.
  rewrite int_wrap_small by lia. unfold indent.
  change (Z.of_nat (length spaces)) with 80%Z.
  destruct (Z.leb_spec 0 (4 * L)); [|lia].
  destruct (Z.leb_spec (4 * L) 80); cbn [andb].
  - split; [lia | by eexists].
  - split; [by intros [? ?] | lia].
Qed.

Lemma max_height_le {A} (h : A → nat) (cs : list A) (m : nat) :
  foldr Nat.max 0 (map h cs) ≤ m ↔ Forall (λ c, h c ≤ m) cs.
Proof.
  induction cs as [|c cs IH]; cbn.
  - split; [constructor | lia].
  - rewrite Forall_cons, <- IH. lia.
Qed.

Section DumpFacts.
Context {V : Type}.
Implicit Types (t : Trie V) (cs : list (Trie V))
  (out : list bstring).

Lemma dump_children_ok (visit : Trie V → Z → list bstring → option (list bstring))
    (w L : Z) (Q : Trie V → Prop) cs :
  is_Some (indent (int_wrap w (4 * L))) →
  Forall (λ ch, ∀ out, is_Some (visit ch (int_wrap w (L + 1)) out) ↔ Q ch) cs →
  ∀ (c : byte) out,
    is_Some (dump_children visit w L cs c out)
    ↔ Forall (λ ch, is_empty_node ch = true ∨ Q ch) cs.
Proof.
  intros [ind Hind]. induction 1 as [|ch cs Hch Hcs IH]; intros c out.
  { cbn. split; [constructor | by eexists]. }
  cbn [dump_children]. rewrite Forall_cons, Hind. cbn [mbind option_bind].
  destruct (is_empty_node ch) eqn:He; cbn [mbind option_bind].
  - rewrite IH. split; [by auto | by intros [_ ?]].
  - destruct (visit ch (int_wrap w (L + 1)) (out ++ [ind ++ child_label c]))
      as [out'|] eqn:Hv; cbn [mbind option_bind].
    + rewrite IH. split; [|by intros [_ ?]].
      intros Hrest. split; [|done]. right.
      apply (proj1 (Hch (out ++ [ind ++ child_label c]))). by eexists.
    + split; [by intros [? ?]|]. intros [[? | HQ] _]; [done|].
      apply (proj2 (Hch (out ++ [ind ++ child_label c]))) in HQ.
      rewrite Hv in HQ. by destruct HQ.
Qed.

(** X15.  [dump(level)] with a level of at least 0 returns normally exactly
    when the node has no child array or the child arrays below it stay
    within level 20; otherwise [spaces[:4*level]] is out of range and it
    panics. *)
Theorem dump_returns_iff_shallow (show : V → bstring) (w : Z) t (level : Z) out :
  (32 ≤ w)%Z → (0 ≤ level)%Z →
  is_Some (dump show w t level out)
  ↔ children t = [] ∨ (level + Z.of_nat (height t) ≤ 21)%Z.
Proof.
  intros Hw. revert level out.
  induction t as [t IH] using Trie_nested_ind. intros level out Hlevel.
  destruct t as [sfx val cs b]. cbn [children] in IH.
  cbn [dump height suffix value children base].
  change (Z.of_nat (length spaces)) with 80%Z.
  set (L := if (80 <? level)%Z then 80%Z else level).
  assert (0 ≤ L ≤ 80 ∧ (L ≤ 20 ↔ level ≤ 20) ∧ (level ≤ 20 → L = level))%Z
    as (HL & HL20 & HLeq).
  { unfold L. destruct (Z.ltb_spec 80 level); lia. }
  destruct cs as [|c0 cs0] eqn:Hcs.
  { cbn. split; [by left | by eexists]. }
  rewrite <- Hcs in *. assert (cs ≠ []) as Hne by (by rewrite Hcs). clear Hcs.
  pose proof (indent_ok w L Hw HL) as Hind.
  destruct (indent (int_wrap w (4 * L))) as [ind|] eqn:Hi; cbn [mbind option_bind].
  - assert (L ≤ 20)%Z as HL' by (apply Hind; by eexists).
    rewrite HLeq in * by lia. clear L HLeq HL20.
    assert (2 ^ 31 ≤ 2 ^ (w - 1))%Z as Hpow by (apply Z.pow_le_mono_r; lia).
    change (2 ^ 31)%Z with 2147483648%Z in Hpow.
    rewrite (dump_children_ok (dump show w) w level
               (λ ch, children ch = [] ∨ (level + 1 + Z.of_nat (height ch) ≤ 21)%Z)).
    + split.
      * intros Hall. right.
        assert (foldr Nat.max 0 (map height cs) ≤ Z.to_nat (20 - level)) as Hmax.
        { apply max_height_le. eapply Forall_impl; [exact Hall|].
          intros ch [He | [Hnil | Hh]]; cbn beta in *.
          - unfold is_empty_node in He. destruct ch as [? ? [|] ?]; cbn in *; [lia|done].
          - destruct ch as [? ? [|] ?]; cbn in *; [lia|done].
          - lia. }
        lia.
      * intros [Hnil | Hh]; [done|].
        assert (foldr Nat.max 0 (map height cs) ≤ Z.to_nat (20 - level)) as Hmax by lia.
        apply max_height_le in Hmax. eapply Forall_impl; [exact Hmax|].
        intros ch Hch. cbn beta in *. right. right. lia.
    + rewrite Hi. by eexists.
    + rewrite int_wrap_small by lia. eapply Forall_impl; [exact IH|].
      intros ch Hch out'. cbn beta in *. by rewrite Hch by lia.
  - assert (¬ (L ≤ 20)%Z) as HL'.
    { intros H20. apply Hind in H20. by destruct H20. }
    split; [by intros [? ?]|]. intros [Hnil | Hh]; [done | lia].
Qed.

End DumpFacts.

Lemma dump_returns_iff_shallow_witness :
  (32 ≤ 64)%Z ∧ (0 ≤ 20)%Z
  ∧ (is_Some (dump (λ n : nat, decimal (Z.of_nat n)) 64 (build ex_chain) 20 [])
     ↔ children (build ex_chain) = []
       ∨ (20 + Z.of_nat (height (build ex_chain)) ≤ 21)%Z).
Proof.
  assert (32 ≤ 64)%Z as H1 by lia. assert (0 ≤ 20)%Z as H2 by lia.
  split_and!; try assumption.
  exact (dump_returns_iff_shallow (λ n : nat, decimal (Z.of_nat n)) 64
           (build ex_chain) 20 [] H1 H2).
Defined.

(** On the chain "a", "ab", "abc" the root has two levels of child arrays:
    [dump(20)] panics at the second. *)
Example dump_panics_below_level_20 :
  dump (λ n : nat, decimal (Z.of_nat n)) 64 (build ex_chain) 20 [] = None
  ∧ is_Some (dump (λ n : nat, decimal (Z.of_nat n)) 64 (build ex_chain) 19 []).
Proof. split; [by vm_compute | vm_compute; by eexists]. Qed.

(** ** byteEqual *)

Lemma byteEqual_from_decides (pre a b : bstring) :
  length a = length b →
  byteEqual_from (length pre) a (pre ++ b) = Some (bool_decide (a = b)).
Proof.
  revert pre b. induction a as [|x a IH]; intros pre [|y b] Hlen; try done.
  cbn [byteEqual_from]. unfold Checked.index.
  rewrite lookup_middle_Some. cbn [mbind option_bind].
  rewrite byte_eqb_eq. case_bool_decide as Hxy; cbn [negb].
  - subst y. rewrite (cons_middle x pre b), app_assoc.
    replace (S (length pre)) with (length (pre ++ [x]))
      by (rewrite length_app; cbn; lia).
    rewrite IH by (cbn in Hlen; lia). f_equal.
    apply bool_decide_ext. split; [by intros -> | by intros [= ->]].
  - f_equal. symmetry. apply bool_decide_eq_false. by intros [= ? ?].
Qed.

(** X16.  [byteEqual(a, b)] of the test harness decides equality of the two
    byte slices, and its index [b[i]] is always in range. *)
Theorem byteEqual_decides (a b : bstring) :
  byteEqual a b = Some (bool_decide (a = b)).
Proof.
  unfold byteEqual. destruct (Nat.eqb_spec (length a) (length b)) as [Hlen | Hlen];
    cbn [negb].
  - by apply (byteEqual_from_decides [] a b).
  - f_equal. symmetry. apply bool_decide_eq_false. by intros ->.
Qed.

(** ** Put never discards a node *)

Section NodeCount.
Context {V : Type}.
Implicit Types (t : Trie V) (cs : list (Trie V)) (key : bstring).

Lemma nodes_length t : length (nodes t) = S (length (concat (map nodes (children t)))).
Proof. by destruct t. Qed.

Lemma count_app cs cs' :
  length (concat (map nodes (cs ++ cs')))
  = length (concat (map nodes cs)) + length (concat (map nodes cs')).
Proof. by rewrite map_app, concat_app, length_app. Qed.

Lemma count_lookup cs i t :
  cs !! i = Some t → length (nodes t) ≤ length (concat (map nodes cs)).
Proof.
  intros Hi. rewrite <- (take_drop_middle cs i t Hi), count_app. cbn.
  rewrite length_app. lia.
Qed.

Lemma count_insert cs i t t' :
  cs !! i = Some t → length (nodes t) ≤ length (nodes t') →
  length (concat (map nodes cs)) ≤ length (concat (map nodes (<[ i := t' ]> cs))).
Proof.
  intros Hi Hle. pose proof (lookup_lt_Some _ _ _ Hi) as Hlt.
  rewrite insert_take_drop by done.
  rewrite <- (take_drop_middle cs i t Hi) at 1.
  rewrite !count_app. cbn. rewrite !length_app. lia.
Qed.

Lemma count_copy_at (dst : list (Trie V)) off cs :
  off + length cs ≤ length dst →
  length (concat (map nodes cs)) ≤ length (concat (map nodes (copy_at dst off cs))).
Proof.
  intros Hfit. unfold copy_at. rewrite (take_ge cs) by lia.
  rewrite !count_app. lia.
Qed.

Lemma reserve_count t c :
  wf t →
  length (concat (map nodes (children t)))
  ≤ length (concat (map nodes (children (reserve t c)))).
Proof.
  intros Hwf. destruct (wf_inv t Hwf) as [Hal _].
  destruct (decide (children t = [])) as [Hnil | Hne].
  { rewrite Hnil. cbn. lia. }
  destruct (aligned_window t Hal Hne) as (j & Hj & Hlen & Hmod).
  pose proof (b2z_range (base t)) as Hbase.
  destruct (grow_spec grow_budget c (base t) j) as (j' & Hj' & Hg & _ & _);
    [lia | unfold grow_budget; lia | done |].
  destruct (window_grows (b2z (base t)) j j') as [Hlo Hhi]; [lia | lia | done |].
  pose proof (pow2_pos j' ltac:(lia)) as Hpj'.
  pose proof (round_down_le (b2z (base t)) (2 ^ j') ltac:(lia) Hpj') as Hrd.
  unfold reserve.
  replace (length (children t) =? 0) with false
    by (symmetry; apply Nat.eqb_neq; destruct (children t); [done | cbn; lia]).
  rewrite Hlen, Hg. destruct (2 ^ j' =? 2 ^ j)%Z; [done|].
  cbn [children]. apply count_copy_at.
  unfold make. rewrite length_replicate.
  rewrite idx_spec by (rewrite b2z_small; lia). rewrite b2z_small by lia. lia.
Qed.

Lemma front_count t key :
  wf t → is_empty_node t = false →
  let s := commonPrefix (suffix t) key in
  length (nodes t)
  ≤ length (nodes (if s <? length (suffix t) then split t key s else t)).
Proof.
  intros Hwf He. cbn zeta.
  destruct (strip (suffix t) key) as [r|] eqn:Hs.
  { by rewrite (commonPrefix_strip _ _ _ Hs), Nat.ltb_irrefl. }
  rewrite tests_None by done.
  destruct (commonPrefix_diverge _ _ Hs) as (p & x & a' & r & Hsfx & Hkey & -> & _).
  destruct (split_spec t key p x a' Hsfx) as (_ & _ & _ & _ & Hch & _);
    [by exists r | done |].
  specialize (Hch x). rewrite decide_True in Hch by done.
  set (t1 := split t key (length p)) in *.
  destruct (out_of_range t1 x) eqn:Hin.
  - unfold child_for in Hch. rewrite Hin in Hch. injection Hch as _ Hv Hc _.
    unfold is_empty_node in He. by rewrite <- Hc, <- Hv in He.
  - pose proof (child_at_in_range t1 x Hin) as Hi. rewrite Hch in Hi.
    apply count_lookup in Hi. rewrite (nodes_length t1).
    rewrite nodes_length in Hi. cbn [children] in Hi.
    rewrite (nodes_length t). lia.
Qed.

Lemma Put_rec_count n t key (v : option V) :
  length key < n → wf t →
  length (nodes t) ≤ length (nodes (Put_rec n t key v)).
Proof.
  revert t key. induction n as [|n IH]; intros t key Hlen Hwf; [lia|].
  cbn [Put_rec]. destruct (is_empty_node t) eqn:He.
  { by rewrite !nodes_length. }
  pose proof (front_count t key Hwf He) as Hfront.
  destruct (Put_front t key Hwf) as (r & Hkey & Hs & Hwf1 & _ & _).
  cbn zeta in *.
  set (s := commonPrefix (suffix t) key) in *.
  set (t1 := if s <? length (suffix t) then split t key s else t) in *.
  clearbody t1 s. subst s key.
  destruct r as [|c0 rest].
  - rewrite app_nil_r, Nat.eqb_refl.
    rewrite (nodes_length (mkTrie _ _ _ _)). cbn [children].
    by rewrite <- nodes_length.
  - rewrite eqb_length_middle, byte_at_middle, drop_S_middle.
    rewrite length_app in Hlen. cbn [length] in Hlen.
    destruct (reserve_spec t1 c0 Hwf1) as (_ & _ & Hwf2 & _ & Hin & _).
    pose proof (reserve_count t1 c0 Hwf1) as Hres.
    set (t2 := reserve t1 c0) in *.
    rewrite (child_at_reserved t2 c0 Hin).
    pose proof (IH (child_for t2 c0) rest ltac:(lia) (wf_child_for t2 c0 Hwf2)) as Hchild.
    pose proof (count_insert _ _ _ _ (child_at_in_range t2 c0 Hin) Hchild) as Hins.
    rewrite (nodes_length (mkTrie _ _ _ _)). cbn [children].
    rewrite (nodes_length t1) in Hfront. lia.
Qed.

(** X17.  [Put] never discards a node, not even when it stores nil: the
    number of nodes of the trie after a [Put] is at least the number
    before. *)
Theorem Put_keeps_nodes (ops : list (bstring * option V)) key (v : option V) :
  length (nodes (build ops)) ≤ length (nodes (Put (build ops) key v)).
Proof. apply Put_rec_count; [lia | apply wf_build]. Qed.

End NodeCount.

(** ** Put seen through ForEach *)

Section PutForEach.
Context {V : Type}.
Implicit Types (ops : list (bstring * option V)) (k key : bstring).

(** X18.  What [ForEach] passes after a [Put]: the pair just put, unless
    its value is nil, and the pairs passed before the [Put] whose key is
    another. *)
Theorem ForEach_after_Put ops key (v : option V) k (w : V) :
  (k, w) ∈ ForEach go_on (Put (build ops) key v)
  ↔ (k = key ∧ v = Some w) ∨ (k ≠ key ∧ (k, w) ∈ ForEach go_on (build ops)).
Proof.
  rewrite <- build_snoc, !ForEach_elem, stored_snoc. cbn [fst snd].
  case_decide as Hk.
  - subst key. split; [by left | by intros [[_ ?] | [? _]]].
  - split; [right; by split|]. intros [[? _] | [_ ?]]; [congruence | done].
Qed.

(** X19.  Removing a key that was put into a trie that did not have it
    restores what [Get] and [ForEach] show. *)
Theorem Put_then_remove ops key (v : option V) :
  stored ops key = None →
  let t := Put (Put (build ops) key v) key None in
  (∀ k, Get t k = Get (build ops) k)
  ∧ ForEach go_on t = ForEach go_on (build ops).
Proof.
  intros Habsent. cbn zeta. rewrite <- !build_snoc.
  assert (∀ k, Get (build ((ops ++ [(key, v)]) ++ [(key, None)])) k
               = Get (build ops) k) as Hget.
  { intros k. rewrite !Get_build, !stored_snoc. cbn [fst snd].
    case_decide; [by subst | done]. }
  split; [done|]. apply ForEach_ext; [apply wf_build | apply wf_build | done].
Qed.

End PutForEach.

Lemma insertion_order_irrelevant_witness :
  NoDup ex_pair.*1 ∧ ex_pair ≡ₚ reverse ex_pair
  ∧ (∀ k, Get (build ex_pair) k = Get (build (reverse ex_pair)) k)
  ∧ ForEach go_on (build ex_pair) = ForEach go_on (build (reverse ex_pair)).
Proof.
  assert (NoDup ex_pair.*1) as H1.
  { apply NoDup_cons. split; [|apply NoDup_singleton].
    intros Hin%list_elem_of_singleton. discriminate Hin. }
  assert (ex_pair ≡ₚ reverse ex_pair) as H2 by apply perm_swap.
  split_and!; try assumption;
    apply (insertion_order_irrelevant ex_pair (reverse ex_pair) H1 H2).
Defined.

Lemma window_within_bytes_witness :
  build ex_foo ∈ nodes (build ex_foo)
  ∧ (b2z (base (build ex_foo)) + Z.of_nat (length (children (build ex_foo))) ≤ 256)%Z.
Proof.
  assert (build ex_foo ∈ nodes (build ex_foo)) as H1.
  { vm_compute. apply list_elem_of_here. }
  split; [assumption|].
  exact (window_within_bytes ex_foo (build ex_foo) H1).
Defined.

Lemma FindPfx_of_stored_key_witness :
  Get (build ex_foo) (bs "fooaaaa") = Some 1
  ∧ FindPfx (build ex_foo) (bs "fooaaaa") = (bs "fooaaaa", Some 1).
Proof.
  assert (Get (build ex_foo) (bs "fooaaaa") = Some 1) as H1
    by (vm_compute; reflexivity).
  split; [assumption|].
  exact (FindPfx_of_stored_key (build ex_foo) (bs "fooaaaa") 1 H1).
Defined.

Lemma Put_then_remove_witness :
  stored ex_pair (bs "ab") = None
  ∧ (∀ k, Get (Put (Put (build ex_pair) (bs "ab") (Some 5)) (bs "ab") None) k
          = Get (build ex_pair) k)
  ∧ ForEach go_on (Put (Put (build ex_pair) (bs "ab") (Some 5)) (bs "ab") None)
    = ForEach go_on (build ex_pair).
Proof.
  assert (stored ex_pair (bs "ab") = None) as H1 by (vm_compute; reflexivity).
  split; [assumption|].
  exact (Put_then_remove ex_pair (bs "ab") (Some 5) H1).
Defined.
